(** * falcon/_typing.py: the private type aliases of Falcon

    The module declares no executable code: it is a catalogue of type
    aliases, type variables, one enum and a handful of callback protocols.
    The development below embeds

    - the type expressions of the module as an abstract syntax ([ty]),
      call signatures as records ([signature]) and every declaration of the
      module under its own name;
    - Python's argument binding ([bind]) for positional-only,
      positional-or-keyword, keyword-only and [**kwargs] parameters, so that
      a contract can be read as the set of calls it admits;
    - a universe of run-time values ([value]) with the membership test
      [has_type], so that an alias can be read as the set of its values. *)

From stdpp Require Import gmap strings list fin_maps.
From Stdlib Require Import ZArith Strings.Byte.

Local Open Scope string_scope.

#[local] Set Warnings "-register-all".

(** ** Type expressions *)

Inductive ty : Type :=
  | TAny                                   (* typing.Any *)
  | TObject                                (* object *)
  | TNone                                  (* None *)
  | TStr                                   (* str *)
  | TBytes                                 (* bytes *)
  | TInt                                   (* int *)
  | TBool                                  (* bool *)
  | TLiteralBool (b : bool)                (* Literal[True], Literal[False] *)
  | TLiteralEnum (enum member : string)    (* Literal[E.M] *)
  | TClass (name : string)                 (* a class of another module *)
  | TVar (name : string)                   (* a type variable *)
  | TRef (name : string)                   (* a protocol class of this module, bare *)
  | TUnion (ts : list ty)                  (* Union[...] *)
  | TOptional (t : ty)                     (* Optional[t] *)
  | TTuple (ts : list ty)                  (* Tuple[t1, ..., tn] *)
  | TDict (k v : ty)                       (* Dict[k, v] *)
  | TMapping (k v : ty)                    (* Mapping[k, v] *)
  | TList (t : ty)                         (* List[t] *)
  | TIterable (t : ty)                     (* Iterable[t] *)
  | TPattern (t : ty)                      (* Pattern[t] *)
  | TAwaitable (t : ty)                    (* Awaitable[t] *)
  | TCallable (args : list ty) (ret : ty). (* Callable[[a1, ..., an], ret] *)

(** The nested induction principle: the components of a union, tuple or
    callable satisfy the property too. *)
Section ty_nested_ind.
Variable P : ty → Prop.
Hypothesis HAny : P TAny.
Hypothesis HObject : P TObject.
Hypothesis HNone : P TNone.
Hypothesis HStr : P TStr.
Hypothesis HBytes : P TBytes.
Hypothesis HInt : P TInt.
Hypothesis HBool : P TBool.
Hypothesis HLitB : ∀ b, P (TLiteralBool b).
Hypothesis HLitE : ∀ e m, P (TLiteralEnum e m).
Hypothesis HClass : ∀ n, P (TClass n).
Hypothesis HVar : ∀ n, P (TVar n).
Hypothesis HRef : ∀ n, P (TRef n).
Hypothesis HUnion : ∀ ts, Forall P ts → P (TUnion ts).
Hypothesis HOptional : ∀ t, P t → P (TOptional t).
Hypothesis HTuple : ∀ ts, Forall P ts → P (TTuple ts).
Hypothesis HDict : ∀ k v, P k → P v → P (TDict k v).
Hypothesis HMapping : ∀ k v, P k → P v → P (TMapping k v).
Hypothesis HList : ∀ t, P t → P (TList t).
Hypothesis HIterable : ∀ t, P t → P (TIterable t).
Hypothesis HPattern : ∀ t, P t → P (TPattern t).
Hypothesis HAwaitable : ∀ t, P t → P (TAwaitable t).
Hypothesis HCallable : ∀ args ret, Forall P args → P ret → P (TCallable args ret).

Fixpoint ty_nested_ind (t : ty) : P t :=
  let all := fix all (ts : list ty) : Forall P ts :=
    match ts with
    | [] => @List.Forall_nil ty P
    | t' :: ts' => @List.Forall_cons ty P t' ts' (ty_nested_ind t') (all ts')
    end in
  match t with
  | TAny => HAny
  | TObject => HObject
  | TNone => HNone
  | TStr => HStr
  | TBytes => HBytes
  | TInt => HInt
  | TBool => HBool
  | TLiteralBool b => HLitB b
  | TLiteralEnum e m => HLitE e m
  | TClass n => HClass n
  | TVar n => HVar n
  | TRef n => HRef n
  | TUnion ts => HUnion ts (all ts)
  | TOptional t' => HOptional t' (ty_nested_ind t')
  | TTuple ts => HTuple ts (all ts)
  | TDict k v => HDict k v (ty_nested_ind k) (ty_nested_ind v)
  | TMapping k v => HMapping k v (ty_nested_ind k) (ty_nested_ind v)
  | TList t' => HList t' (ty_nested_ind t')
  | TIterable t' => HIterable t' (ty_nested_ind t')
  | TPattern t' => HPattern t' (ty_nested_ind t')
  | TAwaitable t' => HAwaitable t' (ty_nested_ind t')
  | TCallable args ret => HCallable args ret (all args) (ty_nested_ind ret)
  end.
End ty_nested_ind.

(** Equality of type expressions, as a boolean test. *)
Fixpoint ty_eqb (s t : ty) {struct s} : bool :=
  let all2 := fix all2 (ss ts : list ty) {struct ss} : bool :=
    match ss, ts with
    | [], [] => true
    | s' :: ss', t' :: ts' => ty_eqb s' t' && all2 ss' ts'
    | _, _ => false
    end in
  match s, t with
  | TAny, TAny | TObject, TObject | TNone, TNone | TStr, TStr
  | TBytes, TBytes | TInt, TInt | TBool, TBool => true
  | TLiteralBool a, TLiteralBool b => Bool.eqb a b
  | TLiteralEnum e m, TLiteralEnum e' m' => String.eqb e e' && String.eqb m m'
  | TClass a, TClass b | TVar a, TVar b | TRef a, TRef b => String.eqb a b
  | TUnion ss, TUnion ts | TTuple ss, TTuple ts => all2 ss ts
  | TOptional a, TOptional b | TList a, TList b | TIterable a, TIterable b
  | TPattern a, TPattern b | TAwaitable a, TAwaitable b => ty_eqb a b
  | TDict k v, TDict k' v' | TMapping k v, TMapping k' v' =>
      ty_eqb k k' && ty_eqb v v'
  | TCallable ss r, TCallable ts r' => all2 ss ts && ty_eqb r r'
  | _, _ => false
  end.

Definition tys_eqb : list ty → list ty → bool :=
  fix all2 (ss ts : list ty) {struct ss} : bool :=
    match ss, ts with
    | [], [] => true
    | s' :: ss', t' :: ts' => ty_eqb s' t' && all2 ss' ts'
    | _, _ => false
    end.

Lemma tys_eqb_eq (ss : list ty) :
  Forall (λ s, ∀ t, ty_eqb s t = true ↔ s = t) ss →
  ∀ ts, tys_eqb ss ts = true ↔ ss = ts.
Proof.
  induction 1 as [|s ss Hs _ IH]; intros [|t ts]; simpl; try (split; [discriminate | discriminate]).
  - split; reflexivity.
  - rewrite andb_true_iff, Hs, IH. split; [intros [-> ->]; reflexivity | intros [= -> ->]; split; reflexivity].
Qed.

Lemma ty_eqb_eq (s t : ty) : ty_eqb s t = true ↔ s = t.
Proof.
  revert t. induction s using ty_nested_ind; intros t; destruct t; simpl;
    try (split; [discriminate | discriminate]); try (split; reflexivity).
  - rewrite Bool.eqb_true_iff. split; [intros -> | intros [= ->]]; reflexivity.
  - rewrite andb_true_iff, !String.eqb_eq.
    split; [intros [-> ->] | intros [= -> ->]]; [reflexivity | split; reflexivity].
  - rewrite String.eqb_eq. split; [intros -> | intros [= ->]]; reflexivity.
  - rewrite String.eqb_eq. split; [intros -> | intros [= ->]]; reflexivity.
  - rewrite String.eqb_eq. split; [intros -> | intros [= ->]]; reflexivity.
  - change (tys_eqb ts ts0 = true ↔ TUnion ts = TUnion ts0).
    rewrite (tys_eqb_eq ts H). split; [intros -> | intros [= ->]]; reflexivity.
  - rewrite IHs. split; [intros -> | intros [= ->]]; reflexivity.
  - change (tys_eqb ts ts0 = true ↔ TTuple ts = TTuple ts0).
    rewrite (tys_eqb_eq ts H). split; [intros -> | intros [= ->]]; reflexivity.
  - rewrite andb_true_iff, IHs1, IHs2.
    split; [intros [-> ->] | intros [= -> ->]]; [reflexivity | split; reflexivity].
  - rewrite andb_true_iff, IHs1, IHs2.
    split; [intros [-> ->] | intros [= -> ->]]; [reflexivity | split; reflexivity].
  - rewrite IHs. split; [intros -> | intros [= ->]]; reflexivity.
  - rewrite IHs. split; [intros -> | intros [= ->]]; reflexivity.
  - rewrite IHs. split; [intros -> | intros [= ->]]; reflexivity.
  - rewrite IHs. split; [intros -> | intros [= ->]]; reflexivity.
  - change (tys_eqb args args0 && ty_eqb s t = true ↔ TCallable args s = TCallable args0 t).
    rewrite andb_true_iff, (tys_eqb_eq args H), IHs.
    split; [intros [-> ->] | intros [= -> ->]]; [reflexivity | split; reflexivity].
Qed.

#[global] Instance ty_eq_dec : EqDecision ty.
Proof.
  intros s t. destruct (ty_eqb s t) eqn:E; [left | right].
  - apply ty_eqb_eq, E.
  - intros Heq. apply ty_eqb_eq in Heq. congruence.
Defined.

(** ** Call signatures

    The [self] parameter of a protocol's [__call__] is bound to the callable
    object itself and takes no argument of a call, so it is not listed.
    [p_default] records that the parameter is declared with a default
    ([= ...] in the source). *)

Record param : Type := Param {
  p_name : string;
  p_type : ty;
  p_default : bool
}.

Record signature : Type := Signature {
  s_async : bool;            (* [async def] *)
  s_posonly : list param;    (* the parameters before [/] *)
  s_params : list param;     (* positional-or-keyword parameters *)
  s_kwonly : list param;     (* the parameters after [*] *)
  s_varkw : option ty;       (* the annotation of [**kwargs] *)
  s_ret : ty                 (* the annotation after [->] *)
}.

#[global] Instance param_eq_dec : EqDecision param.
Proof. solve_decision. Defined.

#[global] Instance signature_eq_dec : EqDecision signature.
Proof. solve_decision. Defined.

(** A required parameter and a parameter with a default. *)
Definition req_param (name : string) (t : ty) : param := Param name t false.
Definition opt_param (name : string) (t : ty) : param := Param name t true.

(** Calling a coroutine function ([async def]) yields an awaitable of the
    annotated return type. *)
Definition s_result (s : signature) : ty :=
  if s_async s then TAwaitable (s_ret s) else s_ret s.

(** [Callable[[a1, ..., an], ret]] is the signature with [n] anonymous
    positional-only parameters. *)
Definition callable_sig (args : list ty) (ret : ty) : signature :=
  Signature false (map (req_param "") args) [] [] None ret.

(** A protocol class: [class name(Protocol[tparams])] with one [__call__]. *)
Record protocol : Type := Protocol {
  proto_name : string;
  proto_tparams : list string;
  proto_call : signature
}.

(** The declarations a module body is made of. *)
Inductive decl : Type :=
  | DEnum (name : string) (members : list string)
  | DTypeVar (name : string) (bound : option ty)
  | DConst (name : string) (enum member : string)
  | DAlias (name : string) (t : ty)
  | DProtocol (p : protocol).

Definition decl_name (d : decl) : string :=
  match d with
  | DEnum n _ | DTypeVar n _ | DConst n _ _ | DAlias n _ => n
  | DProtocol p => proto_name p
  end.

(** ** The module, declaration by declaration *)

(** Lines 43-48: the module branches on the version of the interpreter.
    From Python 3.11 on the two names are imported from [wsgiref.types],
    which is not part of this module; before that they are the two aliases
    of lines 47-48. The definitions below are these two aliases, the branch
    that the module itself spells out. *)
Definition WSGIEnvironment : ty := TDict TStr TAny.
Definition StartResponse : ty :=
  TCallable [TStr; TList (TTuple [TStr; TStr])] (TCallable [TBytes] TNone).

(** Lines 50-58: names imported for type checking only. [AsgiEvent] and
    [AsgiSendMsg] are not classes but aliases that [falcon.asgi_spec]
    declares, [Mapping[str, Any]] for an event that is received and
    [Dict[str, Any]] for a message that is sent; the others are classes. *)
Definition AsgiRequest : ty := TClass "falcon.asgi.Request".
Definition AsgiResponse : ty := TClass "falcon.asgi.Response".
Definition WebSocket : ty := TClass "falcon.asgi.WebSocket".
Definition AsgiEvent : ty := TMapping TStr TAny.
Definition AsgiSendMsg : ty := TDict TStr TAny.
Definition HTTPError : ty := TClass "falcon.http_error.HTTPError".
Definition Request : ty := TClass "falcon.request.Request".
Definition Response : ty := TClass "falcon.response.Response".
Definition Cookie : ty := TClass "http.cookiejar.Cookie".
Definition HTTPStatus : ty := TClass "http.HTTPStatus".
Definition BaseException : ty := TClass "BaseException".

(** Lines 61-62: [class _Unset(Enum): UNSET = auto()]. *)
Inductive _Unset : Set := UNSET.

Definition _Unset_members : list string := ["UNSET"].

(** Lines 66-72: the type variables. *)
Definition _T : ty := TVar "_T".
Definition _BE : ty := TVar "_BE".
Definition _REQ : ty := TVar "_REQ".
Definition _A_REQ : ty := TVar "_A_REQ".
Definition _RESP : ty := TVar "_RESP".
Definition _A_RESP : ty := TVar "_A_RESP".

(** Lines 74-75. *)
Definition _UNSET : _Unset := UNSET.
Definition UnsetOr : ty := TUnion [TLiteralEnum "_Unset" "UNSET"; _T].

(** Lines 77-80. *)
Definition Link : ty := TDict TStr TStr.
Definition CookieArg : ty := TMapping TStr (TUnion [TStr; Cookie]).
Definition ErrorHandler : ty := TCallable [_REQ; _RESP; _BE; TDict TStr TAny] TNone.

(** Lines 83-93. *)
Definition AsgiErrorHandler : protocol :=
  Protocol "AsgiErrorHandler" ["_A_REQ"; "_A_RESP"; "_BE"]
    {| s_async := true;
       s_posonly := [req_param "req" _A_REQ;
                     req_param "resp" (TOptional _A_RESP);
                     req_param "error" _BE;
                     req_param "params" (TDict TStr TAny)];
       s_params := [];
       s_kwonly := [opt_param "ws" (TOptional WebSocket)];
       s_varkw := None;
       s_ret := TNone |}.

(** Lines 97-100. *)
Definition ErrorSerializer : ty := TCallable [_REQ; _RESP; HTTPError] TNone.
Definition SinkPrefix : ty := TUnion [TStr; TPattern TStr].

(** Lines 103-108. *)
Definition SinkCallable : protocol :=
  Protocol "SinkCallable" ["_REQ"; "_RESP"]
    {| s_async := false;
       s_posonly := [req_param "req" _REQ; req_param "resp" _RESP];
       s_params := [];
       s_kwonly := [];
       s_varkw := Some TStr;
       s_ret := TNone |}.

Definition AsgiSinkCallable : protocol :=
  Protocol "AsgiSinkCallable" ["_A_REQ"; "_A_RESP"]
    {| s_async := true;
       s_posonly := [req_param "req" _A_REQ; req_param "resp" _A_RESP];
       s_params := [];
       s_kwonly := [];
       s_varkw := Some TStr;
       s_ret := TNone |}.

(** Lines 111-117. *)
Definition HeaderMapping : ty := TMapping TStr TStr.
Definition HeaderIter : ty := TIterable (TTuple [TStr; TStr]).
Definition HeaderArg : ty := TUnion [HeaderMapping; HeaderIter].
Definition ResponseStatus : ty := TUnion [HTTPStatus; TStr; TInt].
Definition StoreArg : ty := TOptional (TDict TStr TAny).
Definition Resource : ty := TObject.
Definition RangeSetHeader : ty :=
  TUnion [TTuple [TInt; TInt; TInt]; TTuple [TInt; TInt; TInt; TStr]].

(** Lines 121-138: the WSGI family. *)
Definition ResponderMethod : protocol :=
  Protocol "ResponderMethod" ["_REQ"; "_RESP"]
    {| s_async := false;
       s_posonly := [req_param "resource" Resource;
                     req_param "req" _REQ;
                     req_param "resp" _RESP];
       s_params := [];
       s_kwonly := [];
       s_varkw := Some TAny;
       s_ret := TNone |}.

Definition ResponderCallable : protocol :=
  Protocol "ResponderCallable" ["_REQ"; "_RESP"]
    {| s_async := false;
       s_posonly := [req_param "req" _REQ; req_param "resp" _RESP];
       s_params := [];
       s_kwonly := [];
       s_varkw := Some TAny;
       s_ret := TNone |}.

Definition ProcessRequestMethod : ty := TCallable [_REQ; _RESP] TNone.
Definition ProcessResourceMethod : ty :=
  TCallable [_REQ; _RESP; Resource; TDict TStr TAny] TNone.
Definition ProcessResponseMethod : ty :=
  TCallable [_REQ; _RESP; Resource; TBool] TNone.

(** Lines 142-175: the ASGI family. *)
Definition AsgiResponderMethod : protocol :=
  Protocol "AsgiResponderMethod" ["_A_REQ"; "_A_RESP"]
    {| s_async := true;
       s_posonly := [req_param "resource" Resource;
                     req_param "req" _A_REQ;
                     req_param "resp" _A_RESP];
       s_params := [];
       s_kwonly := [];
       s_varkw := Some TAny;
       s_ret := TNone |}.

Definition AsgiResponderCallable : protocol :=
  Protocol "AsgiResponderCallable" ["_A_REQ"; "_A_RESP"]
    {| s_async := true;
       s_posonly := [req_param "req" _A_REQ; req_param "resp" _A_RESP];
       s_params := [];
       s_kwonly := [];
       s_varkw := Some TAny;
       s_ret := TNone |}.

Definition AsgiResponderWsCallable : protocol :=
  Protocol "AsgiResponderWsCallable" ["_A_REQ"]
    {| s_async := true;
       s_posonly := [req_param "req" _A_REQ; req_param "ws" WebSocket];
       s_params := [];
       s_kwonly := [];
       s_varkw := Some TAny;
       s_ret := TNone |}.

Definition AsgiReceive : ty := TCallable [] (TAwaitable AsgiEvent).
Definition AsgiSend : ty := TCallable [AsgiSendMsg] (TAwaitable TNone).
Definition AsgiProcessRequestMethod : ty :=
  TCallable [_A_REQ; _A_RESP] (TAwaitable TNone).
Definition AsgiProcessResourceMethod : ty :=
  TCallable [_A_REQ; _A_RESP; Resource; TDict TStr TAny] (TAwaitable TNone).
Definition AsgiProcessResponseMethod : ty :=
  TCallable [_A_REQ; _A_RESP; Resource; TBool] (TAwaitable TNone).
Definition AsgiProcessRequestWsMethod : ty :=
  TCallable [_A_REQ; WebSocket] (TAwaitable TNone).
Definition AsgiProcessResourceWsMethod : ty :=
  TCallable [_A_REQ; WebSocket; Resource; TDict TStr TAny] (TAwaitable TNone).
Definition ResponseCallbacks : ty :=
  TUnion [TTuple [TCallable [] TNone; TLiteralBool false];
          TTuple [TCallable [] (TAwaitable TNone); TLiteralBool true]].

(** Lines 180-189: routing. *)
Definition MethodDict : ty :=
  TUnion [TDict TStr (TRef "ResponderCallable");
          TDict TStr (TUnion [TRef "AsgiResponderCallable";
                              TRef "AsgiResponderWsCallable"])].

Definition FindMethod : protocol :=
  Protocol "FindMethod" ["_REQ"]
    {| s_async := false;
       s_posonly := [];
       s_params := [req_param "uri" TStr; req_param "req" (TOptional _REQ)];
       s_kwonly := [];
       s_varkw := None;
       s_ret := TOptional (TTuple [TObject; MethodDict; TDict TStr TAny;
                                   TOptional TStr]) |}.

(** Lines 193-199: media. *)
Definition SerializeSync : protocol :=
  Protocol "SerializeSync" []
    {| s_async := false;
       s_posonly := [];
       s_params := [req_param "media" TAny;
                    opt_param "content_type" (TOptional TStr)];
       s_kwonly := [];
       s_varkw := None;
       s_ret := TBytes |}.

Definition DeserializeSync : ty := TCallable [TBytes] TAny.

Definition Responder : ty :=
  TUnion [TRef "ResponderMethod"; TRef "AsgiResponderMethod"].

(** The module body, in source order. *)
Definition module : list decl := [
  DAlias "WSGIEnvironment" WSGIEnvironment;
  DAlias "StartResponse" StartResponse;
  DEnum "_Unset" _Unset_members;
  DTypeVar "_T" None;
  DTypeVar "_BE" (Some BaseException);
  DTypeVar "_REQ" (Some Request);
  DTypeVar "_A_REQ" (Some AsgiRequest);
  DTypeVar "_RESP" (Some Response);
  DTypeVar "_A_RESP" (Some AsgiResponse);
  DConst "_UNSET" "_Unset" "UNSET";
  DAlias "UnsetOr" UnsetOr;
  DAlias "Link" Link;
  DAlias "CookieArg" CookieArg;
  DAlias "ErrorHandler" ErrorHandler;
  DProtocol AsgiErrorHandler;
  DAlias "ErrorSerializer" ErrorSerializer;
  DAlias "SinkPrefix" SinkPrefix;
  DProtocol SinkCallable;
  DProtocol AsgiSinkCallable;
  DAlias "HeaderMapping" HeaderMapping;
  DAlias "HeaderIter" HeaderIter;
  DAlias "HeaderArg" HeaderArg;
  DAlias "ResponseStatus" ResponseStatus;
  DAlias "StoreArg" StoreArg;
  DAlias "Resource" Resource;
  DAlias "RangeSetHeader" RangeSetHeader;
  DProtocol ResponderMethod;
  DProtocol ResponderCallable;
  DAlias "ProcessRequestMethod" ProcessRequestMethod;
  DAlias "ProcessResourceMethod" ProcessResourceMethod;
  DAlias "ProcessResponseMethod" ProcessResponseMethod;
  DProtocol AsgiResponderMethod;
  DProtocol AsgiResponderCallable;
  DProtocol AsgiResponderWsCallable;
  DAlias "AsgiReceive" AsgiReceive;
  DAlias "AsgiSend" AsgiSend;
  DAlias "AsgiProcessRequestMethod" AsgiProcessRequestMethod;
  DAlias "AsgiProcessResourceMethod" AsgiProcessResourceMethod;
  DAlias "AsgiProcessResponseMethod" AsgiProcessResponseMethod;
  DAlias "AsgiProcessRequestWsMethod" AsgiProcessRequestWsMethod;
  DAlias "AsgiProcessResourceWsMethod" AsgiProcessResourceWsMethod;
  DAlias "ResponseCallbacks" ResponseCallbacks;
  DAlias "MethodDict" MethodDict;
  DProtocol FindMethod;
  DProtocol SerializeSync;
  DAlias "DeserializeSync" DeserializeSync;
  DAlias "Responder" Responder
].

Definition protocols : list protocol :=
  omap (λ d, match d with DProtocol p => Some p | _ => None end) module.

Definition find_protocol (name : string) : option protocol :=
  List.find (λ p, String.eqb (proto_name p) name) protocols.

(** The bound of a declared type variable. *)
Definition typevar_bound (name : string) : option ty :=
  (fix go (ds : list decl) : option ty :=
     match ds with
     | [] => None
     | DTypeVar n b :: ds' => if String.eqb n name then b else go ds'
     | _ :: ds' => go ds'
     end) module.

(** ** Instantiating type variables *)

Fixpoint subst (σ : string → ty) (t : ty) : ty :=
  match t with
  | TVar n => σ n
  | TUnion ts => TUnion (map (subst σ) ts)
  | TOptional t' => TOptional (subst σ t')
  | TTuple ts => TTuple (map (subst σ) ts)
  | TDict k v => TDict (subst σ k) (subst σ v)
  | TMapping k v => TMapping (subst σ k) (subst σ v)
  | TList t' => TList (subst σ t')
  | TIterable t' => TIterable (subst σ t')
  | TPattern t' => TPattern (subst σ t')
  | TAwaitable t' => TAwaitable (subst σ t')
  | TCallable args ret => TCallable (map (subst σ) args) (subst σ ret)
  | _ => t
  end.

Definition subst_param (σ : string → ty) (p : param) : param :=
  Param (p_name p) (subst σ (p_type p)) (p_default p).

Definition subst_sig (σ : string → ty) (s : signature) : signature :=
  {| s_async := s_async s;
     s_posonly := map (subst_param σ) (s_posonly s);
     s_params := map (subst_param σ) (s_params s);
     s_kwonly := map (subst_param σ) (s_kwonly s);
     s_varkw := subst σ <$> s_varkw s;
     s_ret := subst σ (s_ret s) |}.

(** A generic class named without arguments has [Any] for each of its
    type variables. *)
Definition erased : string → ty := λ _, TAny.

(** ** Run-time values

    An object carries the names of the classes of its method resolution
    order; a compiled pattern carries the pattern it was compiled from; an
    awaitable carries the value that awaiting it yields; a callable carries
    its annotated signature. *)

Inductive value : Type :=
  | VNone
  | VBool (b : bool)
  | VInt (n : Z)
  | VStr (s : string)
  | VBytes (bs : list byte)
  | VEnum (enum member : string)
  | VObject (mro : list string)
  | VPattern (pattern : value)
  | VTuple (vs : list value)
  | VList (vs : list value)
  | VDict (items : list (value * value))
  | VAwaitable (result : value)
  | VFunc (s : signature).

(** The values of the enum [_Unset]. *)
Definition enum_value (u : _Unset) : value :=
  match u with UNSET => VEnum "_Unset" "UNSET" end.

(** ** Assignability of annotations

    [consistent s t]: the two annotations are the same up to [Any], which
    stands for any annotation. This is what is asked of the arguments of an
    invariant generic: [Dict[str, str]] may be used as [Dict[str, Any]]. *)

Fixpoint consistent (s t : ty) {struct s} : bool :=
  let all2 := fix all2 (ss ts : list ty) {struct ss} : bool :=
    match ss, ts with
    | [], [] => true
    | s' :: ss', t' :: ts' => consistent s' t' && all2 ss' ts'
    | _, _ => false
    end in
  match s, t with
  | TAny, _ | _, TAny => true
  | TUnion ss, TUnion ts | TTuple ss, TTuple ts => all2 ss ts
  | TOptional a, TOptional b | TList a, TList b | TIterable a, TIterable b
  | TPattern a, TPattern b | TAwaitable a, TAwaitable b => consistent a b
  | TDict k v, TDict k' v' | TMapping k v, TMapping k' v' =>
      consistent k k' && consistent v v'
  | TCallable ss r, TCallable ts r' => all2 ss ts && consistent r r'
  | _, _ => ty_eqb s t
  end.

Definition all_consistent : list ty → list ty → bool :=
  fix all2 (ss ts : list ty) {struct ss} : bool :=
    match ss, ts with
    | [], [] => true
    | s' :: ss', t' :: ts' => consistent s' t' && all2 ss' ts'
    | _, _ => false
    end.

(** [assignable s t]: a value annotated [s] may be used where [t] is
    expected. [Any] is compatible in both directions, [object] is the top
    type, a union on the left needs every member to fit, a union on the
    right needs one member that fits, tuples and awaitables are covariant,
    dictionaries and lists are invariant. Callable annotations nested
    inside an annotation are compared with consistent parameter types.
    Classes are compared by name: the classes that the module imports are
    declared elsewhere, and so is the hierarchy among them. *)

Fixpoint none_into (t : ty) : bool :=
  match t with
  | TAny | TObject | TNone | TOptional _ => true
  | TUnion ts => existsb none_into ts
  | _ => false
  end.

Fixpoint assignable (s : ty) : ty → bool :=
  fix into (t : ty) {struct t} : bool :=
    consistent s t
    || match t with
       | TAny | TObject => true
       | TUnion ts => existsb into ts
       | TOptional t' => into t'
       | _ => false
       end
    || match s with
       | TAny => true
       | TNone => none_into t
       | TUnion ss => forallb (λ s', assignable s' t) ss
       | TOptional s' => none_into t && assignable s' t
       | TLiteralBool _ => match t with TBool | TInt => true | _ => false end
       | TBool => match t with TInt => true | _ => false end
       | TLiteralEnum e _ => match t with TClass c => String.eqb e c | _ => false end
       | TTuple ss =>
           match t with
           | TTuple ts =>
               (fix all2 (ss ts : list ty) {struct ss} : bool :=
                  match ss, ts with
                  | [], [] => true
                  | s' :: ss', t' :: ts' => assignable s' t' && all2 ss' ts'
                  | _, _ => false
                  end) ss ts
           | TIterable t' => forallb (λ s', assignable s' t') ss
           | _ => false
           end
       | TDict k v | TMapping k v =>
           match t with
           | TMapping k' v' => consistent k k' && assignable v v'
           | TIterable t' => assignable k t'
           | _ => false
           end
       | TList s' | TIterable s' =>
           match t with TIterable t' => assignable s' t' | _ => false end
       | TAwaitable s' =>
           match t with TAwaitable t' => assignable s' t' | _ => false end
       | TCallable ss r =>
           match t with
           | TCallable ts r' => all_consistent ss ts && assignable r r'
           | _ => false
           end
       | _ => false
       end.

(** ** Conformance of a callable to a call signature

    [callable_le f c]: a callable with signature [f] may stand where the
    contract [c] is expected. Parameter types are contravariant, the result
    is covariant. A positional-only parameter of the contract is matched by
    position alone; a positional-or-keyword parameter of the contract needs
    a parameter of the same name at the same position. A keyword-only
    parameter of the contract is matched by the parameter of that name, and
    by [**kwargs] only when the callable has no parameter of that name.
    The positional parameters that the callable has beyond those of the
    contract need a default, and so does every keyword-only parameter that
    the contract does not name. When the contract has [**kwargs], a call
    through it may pass any keyword: the callable needs [**kwargs] too, and
    each parameter of the callable that can be named and that the contract
    does not name needs a default and a type that takes such a keyword.

    The check is conservative in two respects: it compares classes by name,
    and the callables it ranges over declare no [*args]. *)

Definition param_le (contract impl : param) : bool :=
  assignable (p_type contract) (p_type impl)
  && implb (p_default contract) (p_default impl).

(** The positional parameters of the implementation, each with the flag
    saying that it may also be passed by keyword. *)
Definition positionals (f : signature) : list (param * bool) :=
  map (λ p, (p, false)) (s_posonly f) ++ map (λ p, (p, true)) (s_params f).

Fixpoint positional_le (by_name : bool) (cs : list param)
    (fs : list (param * bool)) : option (list (param * bool)) :=
  match cs, fs with
  | [], _ => Some fs
  | c :: cs', (p, nameable) :: fs' =>
      if param_le c p
         && implb by_name (nameable && String.eqb (p_name c) (p_name p))
      then positional_le by_name cs' fs'
      else None
  | _ :: _, [] => None
  end.

Definition keyword_le (f : signature) (rest : list (param * bool))
    (c : param) : bool :=
  match List.find (λ p, String.eqb (p_name p) (p_name c))
          (map fst (List.filter (λ q : param * bool, snd q) rest) ++ s_kwonly f)
  with
  | Some p => param_le c p
  | None =>
      match s_varkw f with
      | Some t => assignable (p_type c) t
      | None => false
      end
  end.

(** The keywords that [**kwargs] of the contract may carry reach the
    parameters of the callable that the contract does not name. *)
Definition any_keyword_le (f c : signature) : bool :=
  match s_varkw c with
  | Some t =>
      forallb (λ p, existsb (String.eqb (p_name p))
                            (map p_name (s_params c ++ s_kwonly c))
                    || (p_default p && assignable t (p_type p)))
              (s_params f ++ s_kwonly f)
  | None => true
  end.

Definition callable_le (f c : signature) : bool :=
  match positional_le false (s_posonly c) (positionals f) with
  | Some rest1 =>
      match positional_le true (s_params c) rest1 with
      | Some rest2 =>
          forallb (λ q, p_default (fst q)) rest2
          && forallb (keyword_le f rest2) (s_kwonly c)
          && forallb (λ p, p_default p
                           || existsb (λ c', String.eqb (p_name c') (p_name p))
                                      (s_kwonly c))
                     (s_kwonly f)
          && match s_varkw c, s_varkw f with
             | Some t, Some t' => assignable t t'
             | Some _, None => false
             | None, _ => true
             end
          && any_keyword_le f c
          && assignable (s_result f) (s_result c)
      | None => false
      end
  | None => false
  end.

(** ** Membership of a value in a type

    [has_type t v]: the value [v] belongs to the closed type [t]. A type
    variable has no values before it is instantiated. *)

Fixpoint chars (s : string) : list string :=
  match s with
  | EmptyString => []
  | String a s' => String a EmptyString :: chars s'
  end.

Fixpoint has_type (t : ty) (v : value) {struct t} : bool :=
  match t with
  | TAny | TObject => true
  | TNone => match v with VNone => true | _ => false end
  | TStr => match v with VStr _ => true | _ => false end
  | TBytes => match v with VBytes _ => true | _ => false end
  | TInt => match v with VInt _ | VBool _ => true | _ => false end
  | TBool => match v with VBool _ => true | _ => false end
  | TLiteralBool b => match v with VBool b' => Bool.eqb b b' | _ => false end
  | TLiteralEnum e m =>
      match v with
      | VEnum e' m' => String.eqb e e' && String.eqb m m'
      | _ => false
      end
  | TClass c =>
      match v with
      | VObject mro => existsb (String.eqb c) mro
      | VEnum e _ => String.eqb c e
      | _ => false
      end
  | TVar _ => false
  | TRef n =>
      match v, find_protocol n with
      | VFunc f, Some p => callable_le f (subst_sig erased (proto_call p))
      | _, _ => false
      end
  | TUnion ts => existsb (λ t', has_type t' v) ts
  | TOptional t' => match v with VNone => true | _ => has_type t' v end
  | TTuple ts =>
      match v with
      | VTuple vs =>
          (fix all2 (ts : list ty) (vs : list value) {struct ts} : bool :=
             match ts, vs with
             | [], [] => true
             | t' :: ts', v' :: vs' => has_type t' v' && all2 ts' vs'
             | _, _ => false
             end) ts vs
      | _ => false
      end
  | TDict k e | TMapping k e =>
      match v with
      | VDict items =>
          forallb (λ kv, has_type k (fst kv) && has_type e (snd kv)) items
      | _ => false
      end
  | TList t' =>
      match v with VList vs => forallb (has_type t') vs | _ => false end
  | TIterable t' =>
      match v with
      | VList vs | VTuple vs => forallb (has_type t') vs
      | VDict items => forallb (λ kv, has_type t' (fst kv)) items
      | VStr s => forallb (λ c, has_type t' (VStr c)) (chars s)
      | _ => false
      end
  | TPattern t' =>
      match v with VPattern p => has_type t' p | _ => false end
  | TAwaitable t' =>
      match v with VAwaitable r => has_type t' r | _ => false end
  | TCallable args ret =>
      match v with
      | VFunc f => callable_le f (callable_sig args ret)
      | _ => false
      end
  end.

Definition tuple_has_type : list ty → list value → bool :=
  fix all2 (ts : list ty) (vs : list value) {struct ts} : bool :=
    match ts, vs with
    | [], [] => true
    | t' :: ts', v' :: vs' => has_type t' v' && all2 ts' vs'
    | _, _ => false
    end.

(** ** Calls and argument binding

    A call passes positional arguments in order and keyword arguments by
    name: [f(a1, ..., an, k1=v1, ..., km=vm)]. [bind] follows Python's
    binding of the arguments of a call to the parameters of a signature:

    - positional arguments fill the positional-only parameters and then the
      positional-or-keyword parameters, in order; one argument too many is
      an error (no signature of the module has [*args]);
    - a keyword naming a positional-or-keyword parameter that a positional
      argument already filled is an error;
    - a positional-only parameter left unfilled takes its default, and is an
      error without one; a keyword never reaches it;
    - a positional-or-keyword or keyword-only parameter left unfilled takes
      the keyword of its name, else its default, and is an error without
      either;
    - the keywords that name no positional-or-keyword or keyword-only
      parameter are collected by [**kwargs], and are an error without it. *)

Record call : Type := Call {
  c_args : list value;
  c_kwargs : gmap string value
}.

Inductive arg : Type :=
  | Given (v : value)
  | Default.

Record binding : Type := Binding {
  b_params : list (param * arg);
  b_extra : gmap string value
}.

Fixpoint fill (ps : list param) (args : list value)
    : list (param * arg) * list param * list value :=
  match ps, args with
  | p :: ps', a :: args' =>
      let '(bs, ps'', args'') := fill ps' args' in
      ((p, Given a) :: bs, ps'', args'')
  | _, _ => ([], ps, args)
  end.

Definition default_of (p : param) : option (param * arg) :=
  if p_default p then Some (p, Default) else None.

Definition by_keyword (kw : gmap string value) (p : param)
    : option (param * arg) :=
  match kw !! p_name p with
  | Some v => Some (p, Given v)
  | None => default_of p
  end.

Definition named_twice (kw : gmap string value) (pa : param * arg) : bool :=
  bool_decide (is_Some (kw !! p_name (fst pa))).

Definition bind (s : signature) (c : call) : option binding :=
  let '(b1, rest1, args1) := fill (s_posonly s) (c_args c) in
  let '(b2, rest2, args2) := fill (s_params s) args1 in
  match args2 with
  | _ :: _ => None
  | [] =>
      if existsb (named_twice (c_kwargs c)) b2 then None
      else
        d1 ← mapM default_of rest1;
        k ← mapM (by_keyword (c_kwargs c)) (rest2 ++ s_kwonly s);
        let extra :=
          foldr delete (c_kwargs c) (map p_name (s_params s ++ s_kwonly s)) in
        match s_varkw s with
        | Some _ => Some (Binding (b1 ++ d1 ++ b2 ++ k) extra)
        | None =>
            if decide (extra = ∅)
            then Some (Binding (b1 ++ d1 ++ b2 ++ k) extra)
            else None
        end
  end.

(** The arguments of a bound call belong to the annotated types. *)
Definition arg_ok (pa : param * arg) : bool :=
  match snd pa with
  | Given v => has_type (p_type (fst pa)) v
  | Default => true
  end.

Definition extra_ok (s : signature) (extra : gmap string value) : bool :=
  match s_varkw s with
  | Some t => bool_decide (map_Forall (λ _ v, has_type t v = true) extra)
  | None => true
  end.

Definition well_typed (s : signature) (b : binding) : bool :=
  forallb arg_ok (b_params b) && extra_ok s (b_extra b).

(** [accepts s c]: the call [c] binds to the closed signature [s] and its
    arguments are well typed. *)
Definition accepts (s : signature) (c : call) : bool :=
  match bind s c with
  | Some b => well_typed s b
  | None => false
  end.

(** The call contract of a declaration, if it declares a callable. *)
Definition contract (d : decl) : option signature :=
  match d with
  | DAlias _ (TCallable args ret) => Some (callable_sig args ret)
  | DProtocol p => Some (proto_call p)
  | _ => None
  end.

(** * Properties *)

(** ** Membership, constructor by constructor *)

Lemma has_type_none (v : value) : has_type TNone v = true ↔ v = VNone.
Proof. destruct v; simpl; split; congruence. Qed.

Lemma has_type_str (v : value) : has_type TStr v = true ↔ ∃ s, v = VStr s.
Proof.
  destruct v; simpl; split; try discriminate; try (intros [? [=]]); eauto.
Qed.

Lemma has_type_bytes (v : value) : has_type TBytes v = true ↔ ∃ bs, v = VBytes bs.
Proof.
  destruct v; simpl; split; try discriminate; try (intros [? [=]]); eauto.
Qed.

Lemma has_type_literal_enum (e m : string) (v : value) :
  has_type (TLiteralEnum e m) v = true ↔ v = VEnum e m.
Proof.
  destruct v; cbn [has_type]; try (split; discriminate).
  rewrite andb_true_iff, !String.eqb_eq.
  split; [intros [-> ->]; reflexivity | intros [= -> ->]; auto].
Qed.

Lemma has_type_optional (t : ty) (v : value) :
  has_type (TOptional t) v = true ↔ v = VNone ∨ has_type t v = true.
Proof.
  destruct v; simpl; split; auto; intros [H|H]; auto; discriminate.
Qed.

Lemma has_type_union (ts : list ty) (v : value) :
  has_type (TUnion ts) v = true ↔ ∃ t, t ∈ ts ∧ has_type t v = true.
Proof.
  simpl. rewrite existsb_exists. setoid_rewrite list_elem_of_In. reflexivity.
Qed.

Lemma has_type_awaitable (t : ty) (v : value) :
  has_type (TAwaitable t) v = true ↔ ∃ r, v = VAwaitable r ∧ has_type t r = true.
Proof.
  destruct v; simpl;
    (split; [try discriminate; eauto
            | intros (r & E & H); try discriminate; injection E as <-; exact H]).
Qed.

Lemma has_type_awaitable_none (v : value) :
  has_type (TAwaitable TNone) v = true ↔ v = VAwaitable VNone.
Proof.
  rewrite has_type_awaitable. split.
  - intros (r & -> & Hr). apply has_type_none in Hr as ->. reflexivity.
  - intros ->. exists VNone. split; reflexivity.
Qed.

Lemma has_type_tuple (ts : list ty) (v : value) :
  has_type (TTuple ts) v = true ↔
  ∃ vs, v = VTuple vs ∧ Forall2 (λ t v', has_type t v' = true) ts vs.
Proof.
  assert (A : ∀ vs, tuple_has_type ts vs = true ↔
                    Forall2 (λ t v', has_type t v' = true) ts vs).
  { induction ts as [|t ts IH]; intros [|v' vs]; simpl.
    - split; [constructor | reflexivity].
    - split; [discriminate | inversion 1].
    - split; [discriminate | inversion 1].
    - rewrite andb_true_iff, IH. split.
      + intros [? ?]. constructor; assumption.
      + inversion 1; subst. split; assumption. }
  destruct v; simpl; try (split; [discriminate | intros (? & [=] & _)]).
  change (tuple_has_type ts vs = true ↔
          ∃ vs0, VTuple vs = VTuple vs0 ∧ Forall2 (λ t v', has_type t v' = true) ts vs0).
  rewrite A. split; [eauto | intros (? & [= <-] & H); exact H].
Qed.

Lemma has_type_dict (k e : ty) (v : value) :
  has_type (TDict k e) v = true ↔
  ∃ items, v = VDict items ∧
    Forall (λ kv, has_type k (fst kv) = true ∧ has_type e (snd kv) = true) items.
Proof.
  destruct v; simpl; try (split; [discriminate | intros (? & [=] & _)]).
  split.
  - intros H. exists items. split; [reflexivity |].
    apply Forall_forall. intros kv Hin.
    apply andb_true_iff. rewrite forallb_forall in H.
    apply H, list_elem_of_In, Hin.
  - intros (? & [= <-] & H). apply forallb_forall. intros kv Hin.
    apply andb_true_iff. rewrite Forall_forall in H.
    apply H, list_elem_of_In, Hin.
Qed.

(** ** Binding against a positional-only signature *)

Lemma extra_any (kw : gmap string value) :
  bool_decide (map_Forall (λ _ v, has_type TAny v = true) kw) = true.
Proof. apply bool_decide_eq_true. intros k v _. reflexivity. Qed.

(** ** What conformance asks of an implementation *)

Lemma callable_le_result (f c : signature) :
  callable_le f c = true → assignable (s_result f) (s_result c) = true.
Proof.
  unfold callable_le.
  destruct (positional_le false _ _); [| discriminate].
  destruct (positional_le true _ _); [| discriminate].
  rewrite !andb_true_iff. tauto.
Qed.

(** The two responder signatures, with the type variables instantiated. *)
Definition responder_sig (σ : string → ty) : signature :=
  subst_sig σ (proto_call ResponderMethod).
Definition asgi_responder_sig (σ : string → ty) : signature :=
  subst_sig σ (proto_call AsgiResponderMethod).

Lemma responder_bind (σ : string → ty) (c : call) (b : binding) :
  bind (responder_sig σ) c = Some b ↔
  ∃ resource req resp,
    c_args c = [resource; req; resp] ∧
    b = Binding [(req_param "resource" TObject, Given resource);
                 (req_param "req" (σ "_REQ"), Given req);
                 (req_param "resp" (σ "_RESP"), Given resp)] (c_kwargs c).
Proof.
  destruct c as [args kw]; simpl.
  destruct args as [|a1 [|a2 [|a3 [|a4 rest]]]]; cbn;
    try (split; [discriminate | intros (? & ? & ? & [=] & _)]).
  split.
  - intros [= <-]. eauto.
  - intros (? & ? & ? & [= <- <- <-] & ->). reflexivity.
Qed.

Lemma asgi_responder_bind (σ : string → ty) (c : call) (b : binding) :
  bind (asgi_responder_sig σ) c = Some b ↔
  ∃ resource req resp,
    c_args c = [resource; req; resp] ∧
    b = Binding [(req_param "resource" TObject, Given resource);
                 (req_param "req" (σ "_A_REQ"), Given req);
                 (req_param "resp" (σ "_A_RESP"), Given resp)] (c_kwargs c).
Proof.
  destruct c as [args kw]; simpl.
  destruct args as [|a1 [|a2 [|a3 [|a4 rest]]]]; cbn;
    try (split; [discriminate | intros (? & ? & ? & [=] & _)]).
  split.
  - intros [= <-]. eauto.
  - intros (? & ? & ? & [= <- <- <-] & ->). reflexivity.
Qed.

Lemma responder_accepts (σ : string → ty) (c : call) :
  accepts (responder_sig σ) c = true ↔
  ∃ resource req resp,
    c_args c = [resource; req; resp] ∧
    has_type (σ "_REQ") req = true ∧ has_type (σ "_RESP") resp = true.
Proof.
  unfold accepts. destruct (bind (responder_sig σ) c) as [b|] eqn:E.
  - apply responder_bind in E as (r & q & p & Hargs & ->).
    unfold well_typed, extra_ok; cbn. rewrite extra_any, !andb_true_r.
    rewrite andb_true_iff. split.
    + intros [? ?]. eauto 6.
    + intros (? & ? & ? & Hargs' & ? & ?).
      rewrite Hargs in Hargs'. injection Hargs' as <- <- <-. split; assumption.
  - split; [discriminate |]. intros (r & q & p & Hargs & _).
    assert (is_Some (bind (responder_sig σ) c)) as [b Hb].
    { eexists. apply responder_bind. eauto. }
    congruence.
Qed.

Lemma asgi_responder_accepts (σ : string → ty) (c : call) :
  accepts (asgi_responder_sig σ) c = true ↔
  ∃ resource req resp,
    c_args c = [resource; req; resp] ∧
    has_type (σ "_A_REQ") req = true ∧ has_type (σ "_A_RESP") resp = true.
Proof.
  unfold accepts. destruct (bind (asgi_responder_sig σ) c) as [b|] eqn:E.
  - apply asgi_responder_bind in E as (r & q & p & Hargs & ->).
    unfold well_typed, extra_ok; cbn. rewrite extra_any, !andb_true_r.
    rewrite andb_true_iff. split.
    + intros [? ?]. eauto 6.
    + intros (? & ? & ? & Hargs' & ? & ?).
      rewrite Hargs in Hargs'. injection Hargs' as <- <- <-. split; assumption.
  - split; [discriminate |]. intros (r & q & p & Hargs & _).
    assert (is_Some (bind (asgi_responder_sig σ) c)) as [b Hb].
    { eexists. apply asgi_responder_bind. eauto. }
    congruence.
Qed.

(** C1, as the code has it. The responder contract, [ResponderMethod] for
    WSGI and [AsgiResponderMethod] for ASGI, read as the calls that its
    signature admits and the values of its declared result. Whatever the
    request and response classes the type variables stand for, a call is
    admitted exactly when it passes three positional arguments, the
    resource (any object), the request and the response; every keyword
    argument of the call is collected by [**kwargs], of any type. The
    synchronous form returns [None] and nothing else; the asynchronous form
    is a coroutine function whose call returns an awaitable of [None] and
    nothing else. *)
Theorem responder_contract (σ : string → ty) :
  (s_async (proto_call ResponderMethod) = false
   ∧ s_async (proto_call AsgiResponderMethod) = true)
  ∧ (∀ c, accepts (responder_sig σ) c = true ↔
       ∃ resource req resp,
         c_args c = [resource; req; resp] ∧
         has_type (σ "_REQ") req = true ∧ has_type (σ "_RESP") resp = true)
  ∧ (∀ c, accepts (asgi_responder_sig σ) c = true ↔
       ∃ resource req resp,
         c_args c = [resource; req; resp] ∧
         has_type (σ "_A_REQ") req = true ∧ has_type (σ "_A_RESP") resp = true)
  ∧ (∀ c b, bind (responder_sig σ) c = Some b → b_extra b = c_kwargs c)
  ∧ (∀ c b, bind (asgi_responder_sig σ) c = Some b → b_extra b = c_kwargs c)
  ∧ (s_varkw (responder_sig σ) = Some TAny
     ∧ s_varkw (asgi_responder_sig σ) = Some TAny)
  ∧ (∀ v, has_type (s_result (responder_sig σ)) v = true ↔ v = VNone)
  ∧ (∀ v, has_type (s_result (asgi_responder_sig σ)) v = true ↔
          v = VAwaitable VNone).
Proof.
  split; [split; reflexivity |].
  split; [apply responder_accepts |].
  split; [apply asgi_responder_accepts |].
  split; [intros c b H; apply responder_bind in H as (? & ? & ? & _ & ->);
          reflexivity |].
  split; [intros c b H; apply asgi_responder_bind in H as (? & ? & ? & _ & ->);
          reflexivity |].
  split; [split; reflexivity |].
  split; [apply has_type_none |].
  apply has_type_awaitable_none.
Qed.

(** ** Signatures whose parameters are all positional-only and required

    This is the shape of every [Callable[[...], ...]] alias and of the
    protocols of the module that declare nothing but [**kwargs] after the
    [/]. *)

Definition posonly_required (s : signature) : Prop :=
  s_params s = [] ∧ s_kwonly s = [] ∧
  Forall (λ p, p_default p = false) (s_posonly s).

Lemma fill_spec (ps : list param) (args : list value) :
  fill ps args =
  (zip ps (Given <$> args), drop (length args) ps, drop (length ps) args).
Proof.
  revert args. induction ps as [|p ps IH]; intros [|a args]; simpl; try reflexivity.
  rewrite IH. reflexivity.
Qed.

Lemma mapM_default_required (ps : list param) :
  Forall (λ p, p_default p = false) ps →
  mapM default_of ps = if ps is [] then Some [] else None.
Proof.
  destruct 1 as [|p ps Hp _]; [reflexivity |].
  assert (Hd : default_of p = None) by (unfold default_of; rewrite Hp; reflexivity).
  simpl. rewrite Hd. reflexivity.
Qed.

Lemma bind_posonly (s : signature) (c : call) (b : binding) :
  posonly_required s →
  bind s c = Some b ↔
  length (c_args c) = length (s_posonly s) ∧
  (s_varkw s = None → c_kwargs c = ∅) ∧
  b = Binding (zip (s_posonly s) (Given <$> c_args c)) (c_kwargs c).
Proof.
  intros (Hp & Hk & Hreq). unfold bind. rewrite fill_spec, Hp, Hk. simpl.
  destruct (decide (length (c_args c) = length (s_posonly s))) as [Hlen|Hlen].
  - rewrite (drop_ge (s_posonly s)), (drop_ge (c_args c)) by lia.
    simpl. rewrite !app_nil_r.
    destruct (s_varkw s).
    + split; [intros [= <-] | intros (_ & _ & ->); reflexivity].
      split; [exact Hlen | split; [discriminate | reflexivity]].
    + destruct (decide (c_kwargs c = ∅)) as [He|He].
      * split; [intros [= <-]; auto | intros (_ & _ & ->); reflexivity].
      * split; [discriminate | intros (_ & He' & _); destruct He; auto].
  - destruct (drop (length (s_posonly s)) (c_args c)) as [|a rest] eqn:Ed.
    + assert (Hlt : length (c_args c) < length (s_posonly s)).
      { apply drop_nil_inv in Ed. lia. }
      rewrite mapM_default_required by (apply Forall_drop, Hreq).
      destruct (drop (length (c_args c)) (s_posonly s)) eqn:Ed'.
      * apply drop_nil_inv in Ed'. lia.
      * simpl. split; [discriminate | intros (? & _); lia].
    + split; [discriminate | intros (? & _); lia].
Qed.

Lemma accepts_posonly (s : signature) (c : call) :
  posonly_required s →
  accepts s c = true ↔
  Forall2 (λ p v, has_type (p_type p) v = true) (s_posonly s) (c_args c) ∧
  match s_varkw s with
  | Some t => map_Forall (λ _ v, has_type t v = true) (c_kwargs c)
  | None => c_kwargs c = ∅
  end.
Proof.
  intros Hs. unfold accepts.
  assert (Hzip : ∀ ps args, length args = length ps →
            forallb arg_ok (zip ps (Given <$> args)) = true ↔
            Forall2 (λ p v, has_type (p_type p) v = true) ps args).
  { induction ps as [|p ps IH]; intros [|a args]; simpl; try discriminate.
    - split; [constructor | reflexivity].
    - intros [= Hlen]. unfold arg_ok at 1; simpl.
      rewrite andb_true_iff, (IH _ Hlen). split.
      + intros [? ?]. constructor; assumption.
      + inversion 1; subst. split; assumption. }
  destruct (bind s c) as [b|] eqn:E.
  - apply (bind_posonly _ _ _ Hs) in E as (Hlen & Hkw & ->).
    unfold well_typed, extra_ok. simpl.
    rewrite andb_true_iff, (Hzip _ _ Hlen).
    destruct (s_varkw s); [rewrite bool_decide_eq_true; reflexivity |].
    split; [intros [? _]; auto | intros [? _]; auto].
  - split; [discriminate |]. intros [HF Hkw].
    assert (is_Some (bind s c)) as [b Hb]; [| congruence].
    eexists. apply (bind_posonly _ _ _ Hs). repeat split.
    + symmetry. eapply Forall2_length, HF.
    + intros Hn. rewrite Hn in Hkw. exact Hkw.
Qed.

(** Reading [Forall2] over an explicit parameter list: one argument per
    parameter. *)
Ltac args_of H :=
  repeat match type of H with
         | Forall2 _ (_ :: _) ?l =>
             let a := fresh "a" in
             let l' := fresh "l" in
             let Ha := fresh "Ha" in
             apply Forall2_cons_inv_l in H as (a & l' & Ha & H & ->);
             simpl in Ha
         | Forall2 _ [] ?l => apply Forall2_nil_inv_l in H as ->
         end.

Ltac args_ok :=
  repeat (constructor; [simpl; first [assumption | reflexivity] |]);
  constructor.

(** ** Sinks *)

Definition sink_sig (σ : string → ty) : signature :=
  subst_sig σ (proto_call SinkCallable).
Definition asgi_sink_sig (σ : string → ty) : signature :=
  subst_sig σ (proto_call AsgiSinkCallable).

Lemma sink_posonly (σ : string → ty) : posonly_required (sink_sig σ).
Proof. repeat split. repeat constructor. Qed.

Lemma asgi_sink_posonly (σ : string → ty) : posonly_required (asgi_sink_sig σ).
Proof. repeat split. repeat constructor. Qed.

Lemma all_str (kw : gmap string value) :
  map_Forall (λ _ v, has_type TStr v = true) kw ↔
  map_Forall (λ _ v, ∃ s, v = VStr s) kw.
Proof.
  split; intros H k v Hk; apply has_type_str, (H k v Hk).
Qed.

Lemma sink_prefix_values (v : value) :
  has_type SinkPrefix v = true ↔
  (∃ s, v = VStr s) ∨ (∃ s, v = VPattern (VStr s)).
Proof.
  unfold SinkPrefix. rewrite has_type_union. split.
  - intros (t & Ht & Hv).
    apply elem_of_cons in Ht as [-> | Ht].
    + left. apply has_type_str, Hv.
    + apply list_elem_of_singleton in Ht as ->.
      destruct v; try discriminate. simpl in Hv.
      apply has_type_str in Hv as [s ->]. right. eauto.
  - intros [[s ->] | [s ->]].
    + exists TStr. split; [left | reflexivity].
    + exists (TPattern TStr). split; [right; left | reflexivity].
Qed.

(** C4. The sink contract, [SinkCallable] and [AsgiSinkCallable]. A call is
    admitted exactly when it passes the request and the response as its two
    positional arguments and every keyword argument it passes is a string:
    [**kwargs] is annotated [str], and a keyword of any other type is
    refused. The synchronous sink returns [None], the asynchronous one an
    awaitable of [None]. A sink prefix ([SinkPrefix]) is a string or a
    pattern compiled from a string, and nothing else. *)
Theorem sink_contract (σ : string → ty) :
  (∀ c, accepts (sink_sig σ) c = true ↔
     ∃ req resp,
       c_args c = [req; resp] ∧
       has_type (σ "_REQ") req = true ∧ has_type (σ "_RESP") resp = true ∧
       map_Forall (λ _ v, ∃ s, v = VStr s) (c_kwargs c))
  ∧ (∀ c, accepts (asgi_sink_sig σ) c = true ↔
       ∃ req resp,
         c_args c = [req; resp] ∧
         has_type (σ "_A_REQ") req = true ∧ has_type (σ "_A_RESP") resp = true ∧
         map_Forall (λ _ v, ∃ s, v = VStr s) (c_kwargs c))
  ∧ (s_varkw (proto_call SinkCallable) = Some TStr
     ∧ s_varkw (proto_call AsgiSinkCallable) = Some TStr)
  ∧ (∀ v, has_type (s_result (sink_sig σ)) v = true ↔ v = VNone)
  ∧ (∀ v, has_type (s_result (asgi_sink_sig σ)) v = true ↔ v = VAwaitable VNone)
  ∧ (∀ v, has_type SinkPrefix v = true ↔
          (∃ s, v = VStr s) ∨ (∃ s, v = VPattern (VStr s))).
Proof.
  split; [| split; [| split; [| split; [| split]]]].
  - intros c. rewrite (accepts_posonly _ _ (sink_posonly σ)). simpl.
    rewrite all_str. split.
    + intros [HF Hkw]. args_of HF. eauto 8.
    + intros (q & p & -> & Hq & Hp & Hkw). split; [args_ok | exact Hkw].
  - intros c. rewrite (accepts_posonly _ _ (asgi_sink_posonly σ)). simpl.
    rewrite all_str. split.
    + intros [HF Hkw]. args_of HF. eauto 8.
    + intros (q & p & -> & Hq & Hp & Hkw). split; [args_ok | exact Hkw].
  - split; reflexivity.
  - apply has_type_none.
  - apply has_type_awaitable_none.
  - apply sink_prefix_values.
Qed.

(** ** Keyword arguments as a finite map *)

Lemma no_other_keyword (kw : gmap string value) (names : list string) :
  foldr delete kw names = ∅ ↔ ∀ k, k ∉ names → kw !! k = None.
Proof.
  rewrite map_empty. split.
  - intros H k Hk. rewrite <- (H k). symmetry.
    apply lookup_foldr_delete_not_elem_of, Hk.
  - intros H k. destruct (decide (k ∈ names)) as [Hin|Hout].
    + apply lookup_foldr_delete, Hin.
    + rewrite lookup_foldr_delete_not_elem_of by exact Hout. apply H, Hout.
Qed.

Lemma keywords_none (kw : gmap string value) (names : list string) :
  foldr delete kw names = ∅ →
  Forall (λ k, kw !! k = None) names →
  kw = ∅.
Proof.
  intros He Hn. apply map_empty. intros k.
  destruct (decide (k ∈ names)) as [Hin|Hout].
  - rewrite Forall_forall in Hn. apply Hn, Hin.
  - apply (proj1 (no_other_keyword kw names) He), Hout.
Qed.

Lemma keywords_one (kw : gmap string value) (k : string) (v : value) :
  (∀ j, j ≠ k → kw !! j = None) → kw !! k = Some v → kw = {[ k := v ]}.
Proof.
  intros Hother Hk. apply map_eq. intros j.
  destruct (decide (j = k)) as [->|Hne].
  - rewrite lookup_singleton_eq. exact Hk.
  - rewrite lookup_singleton_ne by congruence. apply Hother, Hne.
Qed.

(** ** Error handlers *)

(** The contract a name of the module stands for. *)
Definition contract_of (name : string) : option signature :=
  d ← List.find (λ d, String.eqb (decl_name d) name) module;
  contract d.

(** The positional parameters of a signature, in order. *)
Definition positional (s : signature) : list param := s_posonly s ++ s_params s.

(** Each type variable at its declared bound. *)
Definition bounds (n : string) : ty := default TAny (typevar_bound n).

(** An instantiation respects the bounds when every value of the type a
    variable stands for is a value of the variable's bound. *)
Definition respects_bounds (σ : string → ty) : Prop :=
  ∀ n b v, typevar_bound n = Some b → has_type (σ n) v = true →
           has_type b v = true.

(** [None] may be passed for the [i]-th positional parameter. *)
Definition admits_none (σ : string → ty) (s : signature) (i : nat) : bool :=
  match positional s !! i with
  | Some p => has_type (subst σ (p_type p)) VNone
  | None => false
  end.

(** The contract of the alias [ErrorHandler]. *)
Definition error_handler_contract : signature :=
  callable_sig [_REQ; _RESP; _BE; TDict TStr TAny] TNone.

Definition error_handler_sig (σ : string → ty) : signature :=
  subst_sig σ error_handler_contract.
Definition asgi_error_handler_sig (σ : string → ty) : signature :=
  subst_sig σ (proto_call AsgiErrorHandler).

Lemma error_handler_declared :
  contract_of "ErrorHandler" = Some error_handler_contract
  ∧ contract_of "AsgiErrorHandler" = Some (proto_call AsgiErrorHandler).
Proof. split; reflexivity. Qed.

Lemma error_handler_posonly (σ : string → ty) :
  posonly_required (error_handler_sig σ).
Proof. repeat split. repeat constructor. Qed.

Lemma error_handler_accepts (σ : string → ty) (c : call) :
  accepts (error_handler_sig σ) c = true ↔
  ∃ req resp error params,
    c_args c = [req; resp; error; params] ∧
    has_type (σ "_REQ") req = true ∧
    has_type (σ "_RESP") resp = true ∧
    has_type (σ "_BE") error = true ∧
    has_type (TDict TStr TAny) params = true ∧
    c_kwargs c = ∅.
Proof.
  rewrite (accepts_posonly _ _ (error_handler_posonly σ)).
  change (s_varkw (error_handler_sig σ)) with (@None ty). split.
  - intros [HF Hkw]. simpl in HF. args_of HF. eauto 12.
  - intros (q & p & e & ps & -> & Hq & Hp & He & Hps & Hkw).
    split; [args_ok | exact Hkw].
Qed.

Definition ws_param : param := opt_param "ws" (TOptional WebSocket).

Lemma asgi_error_handler_bind (σ : string → ty) (c : call) (b : binding) :
  bind (asgi_error_handler_sig σ) c = Some b ↔
  ∃ req resp error params,
    c_args c = [req; resp; error; params] ∧
    (∀ k, k ≠ "ws" → c_kwargs c !! k = None) ∧
    b = Binding [(req_param "req" (σ "_A_REQ"), Given req);
                 (req_param "resp" (TOptional (σ "_A_RESP")), Given resp);
                 (req_param "error" (σ "_BE"), Given error);
                 (req_param "params" (TDict TStr TAny), Given params);
                 (ws_param, from_option Given Default (c_kwargs c !! "ws"))]
                ∅.
Proof.
  assert (Hws : ∀ kw : gmap string value,
            delete "ws" kw = ∅ ↔ ∀ k, k ≠ "ws" → kw !! k = None).
  { intros kw. rewrite (no_other_keyword kw ["ws"]).
    split; intros H k Hk; apply H.
    - rewrite list_elem_of_singleton. exact Hk.
    - rewrite list_elem_of_singleton in Hk. exact Hk. }
  destruct c as [args kw]; simpl.
  destruct args as [|a1 [|a2 [|a3 [|a4 [|a5 rest]]]]]; cbn;
    try (split; [discriminate | intros (? & ? & ? & ? & [=] & _)]).
  unfold by_keyword; simpl.
  destruct (decide (delete "ws" kw = ∅)) as [He|He].
  - destruct (kw !! "ws") as [w|] eqn:Ew; cbn; rewrite He.
    + split.
      * intros [= <-]. exists a1, a2, a3, a4. rewrite <- Hws. auto.
      * intros (? & ? & ? & ? & [= <- <- <- <-] & _ & ->). reflexivity.
    + split.
      * intros [= <-]. exists a1, a2, a3, a4. rewrite <- Hws. auto.
      * intros (? & ? & ? & ? & [= <- <- <- <-] & _ & ->). reflexivity.
  - destruct (kw !! "ws") as [w|] eqn:Ew; cbn;
      (split; [discriminate |]);
      intros (? & ? & ? & ? & _ & Hk & _); destruct He; apply Hws, Hk.
Qed.

Lemma asgi_error_handler_accepts (σ : string → ty) (c : call) :
  accepts (asgi_error_handler_sig σ) c = true ↔
  ∃ req resp error params,
    c_args c = [req; resp; error; params] ∧
    has_type (σ "_A_REQ") req = true ∧
    (resp = VNone ∨ has_type (σ "_A_RESP") resp = true) ∧
    has_type (σ "_BE") error = true ∧
    has_type (TDict TStr TAny) params = true ∧
    (c_kwargs c = ∅ ∨
     ∃ ws, c_kwargs c = {[ "ws" := ws ]} ∧
           (ws = VNone ∨ has_type WebSocket ws = true)).
Proof.
  unfold accepts.
  destruct (bind (asgi_error_handler_sig σ) c) as [b|] eqn:E.
  - apply asgi_error_handler_bind in E as (q & p & e & ps & Hargs & Hkw & ->).
    unfold well_typed, extra_ok, arg_ok; cbn [forallb fst snd p_type req_param
      b_params b_extra s_varkw asgi_error_handler_sig subst_sig proto_call
      AsgiErrorHandler fmap option_fmap option_map].
    rewrite !andb_true_r, !andb_true_iff, (has_type_optional (σ "_A_RESP")).
    split.
    + intros (Hq & Hp & He & Hps & Hw). exists q, p, e, ps.
      repeat (split; [assumption |]).
      destruct (c_kwargs c !! "ws") as [w|] eqn:Ew.
      * right. exists w. split; [apply keywords_one; assumption |].
        apply has_type_optional, Hw.
      * left. apply map_empty. intros k.
        destruct (decide (k = "ws")) as [->|Hne]; [exact Ew | apply Hkw, Hne].
    + intros (q' & p' & e' & ps' & Hargs' & Hq & Hp & He & Hps & Hw).
      rewrite Hargs in Hargs'. injection Hargs' as <- <- <- <-.
      repeat (split; [assumption |]).
      destruct Hw as [-> | (w & -> & Hw)].
      * rewrite lookup_empty. reflexivity.
      * rewrite lookup_singleton_eq. apply has_type_optional, Hw.
  - split; [discriminate |].
    intros (q & p & e & ps & Hargs & _ & _ & _ & _ & Hw).
    assert (is_Some (bind (asgi_error_handler_sig σ) c)) as [b Hb];
      [| congruence].
    eexists. apply asgi_error_handler_bind. exists q, p, e, ps.
    split; [exact Hargs |]. split; [| reflexivity].
    intros k Hk. destruct Hw as [-> | (w & -> & _)].
    + apply lookup_empty.
    + apply lookup_singleton_ne. congruence.
Qed.

Lemma bounds_respected : respects_bounds bounds.
Proof. intros n b v Hb. unfold bounds. rewrite Hb. simpl. auto. Qed.

Lemma none_not_response (σ : string → ty) :
  respects_bounds σ → has_type (σ "_RESP") VNone = false.
Proof.
  intros Hσ. destruct (has_type (σ "_RESP") VNone) eqn:E; [| reflexivity].
  apply (Hσ "_RESP" Response VNone eq_refl) in E. discriminate.
Qed.

(** C2, as the code has it. Both error-handler contracts are called with a
    request, a response, the raised error and the parameter mapping (a
    dictionary with string keys), in that order. In the asynchronous
    contract ([AsgiErrorHandler]) the response is annotated
    [Optional[_A_RESP]] and [None] may be passed for it, whatever the type
    variables stand for. In the synchronous contract ([ErrorHandler]) the
    response is annotated [_RESP], whose bound is [Response]: [None] is
    never admitted for it. *)
Theorem error_handler_response (σ : string → ty) (Hσ : respects_bounds σ) :
  admits_none σ (proto_call AsgiErrorHandler) 1 = true
  ∧ admits_none σ error_handler_contract 1 = false
  ∧ (∀ c, accepts (asgi_error_handler_sig σ) c = true ↔
       ∃ req resp error params,
         c_args c = [req; resp; error; params] ∧
         has_type (σ "_A_REQ") req = true ∧
         (resp = VNone ∨ has_type (σ "_A_RESP") resp = true) ∧
         has_type (σ "_BE") error = true ∧
         has_type (TDict TStr TAny) params = true ∧
         (c_kwargs c = ∅ ∨
          ∃ ws, c_kwargs c = {[ "ws" := ws ]} ∧
                (ws = VNone ∨ has_type WebSocket ws = true)))
  ∧ (∀ c, accepts (error_handler_sig σ) c = true ↔
       ∃ req resp error params,
         c_args c = [req; resp; error; params] ∧
         has_type (σ "_REQ") req = true ∧
         (resp ≠ VNone ∧ has_type (σ "_RESP") resp = true) ∧
         has_type (σ "_BE") error = true ∧
         has_type (TDict TStr TAny) params = true ∧
         c_kwargs c = ∅).
Proof.
  split; [reflexivity |]. split; [apply none_not_response, Hσ |].
  split; [apply asgi_error_handler_accepts |].
  intros c. rewrite error_handler_accepts. split.
  - intros (q & p & e & ps & Hargs & Hq & Hp & Hrest). exists q, p, e, ps.
    repeat (split; [assumption |]). split; [| exact Hrest].
    split; [| exact Hp]. intros ->.
    rewrite (none_not_response σ Hσ) in Hp. discriminate.
  - intros (q & p & e & ps & Hargs & Hq & [_ Hp] & Hrest). exists q, p, e, ps.
    repeat (split; [assumption |]). exact Hrest.
Qed.

Lemma error_handler_response_witness :
  respects_bounds bounds
  ∧ admits_none bounds (proto_call AsgiErrorHandler) 1 = true
  ∧ admits_none bounds error_handler_contract 1 = false.
Proof.
  split; [exact bounds_respected |].
  destruct (error_handler_response bounds bounds_respected) as (H1 & H2 & _).
  split; [exact H1 | exact H2].
Defined.

(** A request, a response and an error as the framework would pass them. *)
Definition a_request : value := VObject ["falcon.request.Request"; "object"].
Definition a_response : value := VObject ["falcon.response.Response"; "object"].
Definition an_error : value :=
  VObject ["ValueError"; "Exception"; "BaseException"; "object"].

(** C2, as stated, fails on [ErrorHandler]: with every type variable at its
    bound, the response parameter of the synchronous contract does not
    admit [None], and the call [handler(req, None, error, {})] is refused
    although the same call with a response is admitted. *)
Lemma error_handler_sync_response_required :
  contract_of "ErrorHandler" = Some error_handler_contract
  ∧ admits_none bounds error_handler_contract 1 = false
  ∧ accepts (error_handler_sig bounds)
      (Call [a_request; a_response; an_error; VDict []] ∅) = true
  ∧ accepts (error_handler_sig bounds)
      (Call [a_request; VNone; an_error; VDict []] ∅) = false
  ∧ ¬ (∀ name s, name ∈ ["ErrorHandler"; "AsgiErrorHandler"] →
         contract_of name = Some s → admits_none bounds s 1 = true).
Proof.
  split; [reflexivity |]. split; [reflexivity |].
  split; [vm_compute; reflexivity |]. split; [vm_compute; reflexivity |].
  intros H. specialize (H "ErrorHandler" _ ltac:(left) eq_refl). discriminate.
Qed.

(** The declarations whose contract has a keyword-only parameter. *)
Definition with_keyword_only : list decl :=
  List.filter (λ d, match contract d with
                    | Some s => negb (bool_decide (s_kwonly s = []))
                    | None => false
                    end) module.

(** C3. [AsgiErrorHandler] declares [ws] after [*], with a default and with
    the annotation [Optional[WebSocket]], and it is the only contract of the
    module with a keyword-only parameter. A call that is otherwise well
    formed is admitted without [ws], and with [ws=...] exactly when the
    value is [None] or a WebSocket; [ws] cannot be passed as a fifth
    positional argument. The synchronous [ErrorHandler] has no such
    parameter: it admits neither a keyword nor a fifth argument. *)
Theorem websocket_channel (σ : string → ty) :
  s_kwonly (proto_call AsgiErrorHandler) = [opt_param "ws" (TOptional WebSocket)]
  ∧ with_keyword_only = [DProtocol AsgiErrorHandler]
  ∧ (∀ c, accepts (asgi_error_handler_sig σ) c = true ↔
       ∃ req resp error params,
         c_args c = [req; resp; error; params] ∧
         has_type (σ "_A_REQ") req = true ∧
         (resp = VNone ∨ has_type (σ "_A_RESP") resp = true) ∧
         has_type (σ "_BE") error = true ∧
         has_type (TDict TStr TAny) params = true ∧
         (c_kwargs c = ∅ ∨
          ∃ ws, c_kwargs c = {[ "ws" := ws ]} ∧
                (ws = VNone ∨ has_type WebSocket ws = true)))
  ∧ (∀ req resp error params ws kw,
       accepts (asgi_error_handler_sig σ)
         (Call [req; resp; error; params; ws] kw) = false)
  ∧ (∀ req resp error params ws kw,
       accepts (error_handler_sig σ)
         (Call [req; resp; error; params; ws] kw) = false)
  ∧ (∀ args ws,
       accepts (error_handler_sig σ) (Call args {[ "ws" := ws ]}) = false).
Proof.
  split; [reflexivity |]. split; [vm_compute; reflexivity |].
  split; [apply asgi_error_handler_accepts |].
  split; [| split].
  - intros q p e ps w kw.
    destruct (accepts _ _) eqn:E; [| reflexivity].
    apply asgi_error_handler_accepts in E as (? & ? & ? & ? & [=] & _).
  - intros q p e ps w kw.
    destruct (accepts _ _) eqn:E; [| reflexivity].
    apply error_handler_accepts in E as (? & ? & ? & ? & [=] & _).
  - intros args w.
    destruct (accepts _ _) eqn:E; [| reflexivity].
    apply error_handler_accepts in E as (? & ? & ? & ? & _ & _ & _ & _ & _ & Hkw).
    simpl in Hkw. apply (f_equal (λ m : gmap string value, m !! "ws")) in Hkw.
    rewrite lookup_singleton_eq, lookup_empty in Hkw. discriminate.
Qed.

Lemma keywords_two (kw : gmap string value) (a b : string) (u r : value) :
  a ≠ b →
  foldr delete kw [a; b] = ∅ → kw !! a = Some u → kw !! b = Some r →
  kw = {[ a := u; b := r ]}.
Proof.
  intros Hab He Ha Hb. apply map_eq. intros j.
  destruct (decide (j = a)) as [->|Hja].
  - rewrite lookup_insert_eq. exact Ha.
  - rewrite lookup_insert_ne by congruence.
    destruct (decide (j = b)) as [->|Hjb].
    + rewrite lookup_singleton_eq. exact Hb.
    + rewrite lookup_singleton_ne by congruence.
      apply (proj1 (no_other_keyword kw [a; b]) He).
      rewrite !elem_of_cons, elem_of_nil. tauto.
Qed.

Lemma keywords_only (kw : gmap string value) (names : list string)
    (a : string) (u : value) :
  foldr delete kw names = ∅ → kw !! a = Some u →
  Forall (λ k, k = a ∨ kw !! k = None) names →
  kw = {[ a := u ]}.
Proof.
  intros He Ha Hn. apply keywords_one; [| exact Ha].
  intros j Hj. destruct (decide (j ∈ names)) as [Hin|Hout].
  - rewrite Forall_forall in Hn. destruct (Hn j Hin); [contradiction | assumption].
  - apply (proj1 (no_other_keyword kw names) He), Hout.
Qed.

(** An explicit keyword map leaves nothing once its names are deleted. *)
Ltac no_extra :=
  apply map_empty; intros ?;
  rewrite ?lookup_delete, ?lookup_insert, ?lookup_singleton, ?lookup_empty;
  repeat case_decide; congruence.

(** ** Routing *)

Definition find_sig (σ : string → ty) : signature :=
  subst_sig σ (proto_call FindMethod).

(** The calls [FindMethod] admits: [find(uri, req)], [find(uri, req=req)]
    and [find(uri=uri, req=req)]. *)
Lemma find_accepts (σ : string → ty) (c : call) :
  accepts (find_sig σ) c = true ↔
  ∃ uri req,
    has_type TStr uri = true ∧
    has_type (TOptional (σ "_REQ")) req = true ∧
    (c = Call [uri; req] ∅
     ∨ c = Call [uri] {[ "req" := req ]}
     ∨ c = Call [] {[ "uri" := uri; "req" := req ]}).
Proof.
  destruct c as [args kw]. unfold accepts.
  destruct args as [|u [|r [|x rest]]]; cbn; unfold named_twice, by_keyword; cbn.
  - destruct (kw !! "uri") as [u|] eqn:Eu;
      destruct (kw !! "req") as [r|] eqn:Er; cbn;
      try (split; [discriminate
                  | intros (u' & r' & _ & _ & [[=] | [[=] | [= ->]]]);
                    simplify_map_eq]).
    destruct (decide (delete "uri" (delete "req" kw) = ∅)) as [He|He]; cbn.
    + unfold well_typed, arg_ok; cbn. rewrite !andb_true_r, andb_true_iff. split.
      * intros [Hu Hr]. exists u, r. split; [exact Hu |]. split; [exact Hr |].
        right; right. f_equal.
        apply keywords_two; [discriminate | assumption ..].
      * intros (u' & r' & Hu & Hr & [[=] | [[=] | [= ->]]]).
        simplify_map_eq; auto.
    + split; [discriminate |].
      intros (u' & r' & _ & _ & [[=] | [[=] | [= ->]]]).
      destruct He. no_extra.
  - destruct (kw !! "uri") as [u0|] eqn:Eu; cbn.
    { split; [discriminate |].
      intros (u' & r' & _ & _ & [[=] | [[= _ ->] | [=]]]); simplify_map_eq. }
    destruct (kw !! "req") as [r|] eqn:Er; cbn.
    2:{ split; [discriminate |].
        intros (u' & r' & _ & _ & [[=] | [[= _ ->] | [=]]]); simplify_map_eq. }
    destruct (decide (delete "uri" (delete "req" kw) = ∅)) as [He|He]; cbn.
    + unfold well_typed, arg_ok; cbn. rewrite !andb_true_r, andb_true_iff. split.
      * intros [Hu Hr]. exists u, r. split; [exact Hu |]. split; [exact Hr |].
        right; left. f_equal.
        apply (keywords_only kw ["uri"; "req"]); auto.
      * intros (u' & r' & Hu & Hr & [[=] | [[= <- ->] | [=]]]).
        simplify_map_eq; auto.
    + split; [discriminate |].
      intros (u' & r' & _ & _ & [[=] | [[= _ ->] | [=]]]).
      destruct He. no_extra.
  - destruct (kw !! "uri") as [u0|] eqn:Eu; cbn.
    { split; [discriminate |].
      intros (u' & r' & _ & _ & [[= _ _ ->] | [[=] | [=]]]); simplify_map_eq. }
    destruct (kw !! "req") as [r0|] eqn:Er; cbn.
    { split; [discriminate |].
      intros (u' & r' & _ & _ & [[= _ _ ->] | [[=] | [=]]]); simplify_map_eq. }
    destruct (decide (delete "uri" (delete "req" kw) = ∅)) as [He|He]; cbn.
    + unfold well_typed, arg_ok; cbn. rewrite !andb_true_r, andb_true_iff. split.
      * intros [Hu Hr]. exists u, r. split; [exact Hu |]. split; [exact Hr |].
        left. f_equal.
        apply (keywords_none kw ["uri"; "req"]);
          [exact He | repeat constructor; assumption].
      * intros (u' & r' & Hu & Hr & [[= <- <- _] | [[=] | [=]]]). auto.
    + split; [discriminate |].
      intros (u' & r' & _ & _ & [[= _ _ ->] | [[=] | [=]]]).
      destruct He. no_extra.
  - split; [discriminate |].
    intros (u' & r' & _ & _ & [[=] | [[=] | [=]]]).
Qed.




Definition str_key (kv : value * value) : Prop := ∃ name, fst kv = VStr name.

Lemma str_keyed (e : ty) (v : value) :
  has_type (TDict TStr e) v = true ↔
  ∃ items, v = VDict items ∧
    Forall (λ kv, str_key kv ∧ has_type e (snd kv) = true) items.
Proof.
  rewrite has_type_dict. unfold str_key.
  split; intros (items & -> & H); exists items; (split; [reflexivity |]);
    eapply Forall_impl; try exact H; simpl;
    intros kv [Hk He]; (split; [apply has_type_str, Hk | exact He]).
Qed.




(** ** Media *)

Definition serialize_sig : signature := proto_call SerializeSync.
Definition deserialize_sig : signature := callable_sig [TBytes] TAny.

Lemma media_declared :
  contract_of "SerializeSync" = Some serialize_sig
  ∧ contract_of "DeserializeSync" = Some deserialize_sig.
Proof. split; reflexivity. Qed.

(** The calls [SerializeSync] admits: [media] by position or by keyword,
    alone or with a content type, itself by position or by keyword. *)
Lemma serialize_accepts (c : call) :
  accepts serialize_sig c = true ↔
  ∃ media,
    c = Call [media] ∅
    ∨ c = Call [] {[ "media" := media ]}
    ∨ ∃ content_type,
        has_type (TOptional TStr) content_type = true ∧
        (c = Call [media; content_type] ∅
         ∨ c = Call [media] {[ "content_type" := content_type ]}
         ∨ c = Call [] {[ "media" := media; "content_type" := content_type ]}).
Proof.
  destruct c as [args kw]. unfold accepts.
  destruct args as [|m [|t [|x rest]]]; cbn;
    unfold named_twice, by_keyword, default_of; cbn.
  - destruct (kw !! "media") as [m|] eqn:Em; cbn.
    2:{ split; [discriminate |].
        intros (m' & [[=] | [[= ->] | (t' & _ & [[=] | [[=] | [= ->]]])]]);
          simplify_map_eq. }
    destruct (decide (delete "media" (delete "content_type" kw) = ∅)) as [He|He].
    2:{ destruct (kw !! "content_type"); cbn; (split; [discriminate |]);
        intros (m' & [[=] | [[= ->] | (t' & _ & [[=] | [[=] | [= ->]]])]]);
          destruct He; no_extra. }
    destruct (kw !! "content_type") as [t|] eqn:Et; cbn;
      unfold well_typed, arg_ok; cbn; rewrite ?andb_true_r.
    + split.
      * intros Ht. exists m. right; right. exists t. split; [exact Ht |].
        right; right. f_equal.
        apply keywords_two; [discriminate | assumption ..].
      * intros (m' & [[=] | [[= ->] | (t' & Ht & [[=] | [[=] | [= ->]]])]]);
          simplify_map_eq; auto.
    + split; [intros _ | reflexivity].
      exists m. right; left. f_equal.
      apply (keywords_only kw ["media"; "content_type"]); auto.
  - destruct (kw !! "media") as [m0|] eqn:Em; cbn.
    { split; [discriminate |].
      intros (m' & [[= _ ->] | [[=] | (t' & _ & [[=] | [[= _ ->] | [=]]])]]);
        simplify_map_eq. }
    destruct (decide (delete "media" (delete "content_type" kw) = ∅)) as [He|He].
    2:{ destruct (kw !! "content_type"); cbn; (split; [discriminate |]);
        intros (m' & [[= _ ->] | [[=] | (t' & _ & [[=] | [[= _ ->] | [=]]])]]);
          destruct He; no_extra. }
    destruct (kw !! "content_type") as [t|] eqn:Et; cbn;
      unfold well_typed, arg_ok; cbn; rewrite ?andb_true_r.
    + split.
      * intros Ht. exists m. right; right. exists t. split; [exact Ht |].
        right; left. f_equal.
        apply (keywords_only kw ["media"; "content_type"]); auto.
      * intros (m' & [[= _ ->] | [[=] | (t' & Ht & [[=] | [[= _ ->] | [=]]])]]);
          simplify_map_eq; auto.
    + split; [intros _ | reflexivity].
      exists m. left. f_equal.
      apply (keywords_none kw ["media"; "content_type"]); auto.
  - destruct (kw !! "media") as [m0|] eqn:Em; cbn.
    { split; [discriminate |].
      intros (m' & [[=] | [[=] | (t' & _ & [[= _ _ ->] | [[=] | [=]]])]]);
        simplify_map_eq. }
    destruct (kw !! "content_type") as [t0|] eqn:Et; cbn.
    { split; [discriminate |].
      intros (m' & [[=] | [[=] | (t' & _ & [[= _ _ ->] | [[=] | [=]]])]]);
        simplify_map_eq. }
    destruct (decide (delete "media" (delete "content_type" kw) = ∅)) as [He|He].
    2:{ split; [discriminate |].
        intros (m' & [[=] | [[=] | (t' & _ & [[= _ _ ->] | [[=] | [=]]])]]);
          destruct He; no_extra. }
    unfold well_typed, arg_ok; cbn; rewrite ?andb_true_r. split.
    + intros Ht. exists m. right; right. exists t. split; [exact Ht |].
      left. f_equal.
      apply (keywords_none kw ["media"; "content_type"]); auto.
    + intros (m' & [[=] | [[=] | (t' & Ht & [[= _ <- _] | [[=] | [=]]])]]).
      exact Ht.
  - split; [discriminate |].
    intros (m' & [[=] | [[=] | (t' & _ & [[=] | [[=] | [=]]])]]).
Qed.

Lemma deserialize_accepts (c : call) :
  accepts deserialize_sig c = true ↔ ∃ bs, c = Call [VBytes bs] ∅.
Proof.
  assert (Hs : posonly_required deserialize_sig)
    by (repeat split; repeat constructor).
  rewrite (accepts_posonly _ _ Hs). destruct c as [args kw]. simpl. split.
  - intros [HF ->]. args_of HF. apply has_type_bytes in Ha as [bs ->].
    exists bs. reflexivity.
  - intros [bs [= -> ->]]. split; [args_ok | reflexivity].
Qed.

(** C5, as the code has it. [SerializeSync] takes the value to serialize
    and, optionally, a content type that is a string or [None], and returns
    bytes. [DeserializeSync] takes the bytes and nothing else, and returns a
    value of any type: the content type is not among its parameters. *)
Theorem media_contract :
  (∀ c, accepts serialize_sig c = true ↔
     ∃ media,
       c = Call [media] ∅
       ∨ c = Call [] {[ "media" := media ]}
       ∨ ∃ content_type,
           (content_type = VNone ∨ ∃ s, content_type = VStr s) ∧
           (c = Call [media; content_type] ∅
            ∨ c = Call [media] {[ "content_type" := content_type ]}
            ∨ c = Call [] {[ "media" := media;
                             "content_type" := content_type ]}))
  ∧ (∀ v, has_type (s_result serialize_sig) v = true ↔ ∃ bs, v = VBytes bs)
  ∧ (∀ c, accepts deserialize_sig c = true ↔ ∃ bs, c = Call [VBytes bs] ∅)
  ∧ (∀ v, has_type (s_result deserialize_sig) v = true).
Proof.
  split; [| split; [| split]].
  - intros c. rewrite serialize_accepts.
    split; intros (m & Hc); exists m;
      (destruct Hc as [Hc | [Hc | (t & Ht & Hc)]];
       [left; exact Hc | right; left; exact Hc | right; right]);
      exists t; (split; [| exact Hc]).
    + apply has_type_optional in Ht as [-> | Hs]; [left; reflexivity |].
      right. apply has_type_str, Hs.
    + apply has_type_optional. destruct Ht as [-> | Hs]; [left; reflexivity |].
      right. apply has_type_str, Hs.
  - apply has_type_bytes.
  - apply deserialize_accepts.
  - reflexivity.
Qed.

(** C5, as stated, fails on [DeserializeSync]: a serializer may be given
    the content type, a deserializer may not, by position or by keyword. *)
Lemma deserialize_takes_no_content_type :
  accepts serialize_sig
    (Call [VDict []; VStr "application/json"] ∅) = true
  ∧ accepts deserialize_sig (Call [VBytes [x7b; x7d]] ∅) = true
  ∧ accepts deserialize_sig
      (Call [VBytes [x7b; x7d]; VStr "application/json"] ∅) = false
  ∧ accepts deserialize_sig
      (Call [VBytes [x7b; x7d]]
            {[ "content_type" := VStr "application/json" ]}) = false
  ∧ length (positional deserialize_sig) = 1.
Proof. repeat split; vm_compute; reflexivity. Qed.

(** ** The unset marker *)

(** [UnsetOr[T]]: the generic alias applied to a type. *)
Definition UnsetOr_of (T : ty) : ty :=
  subst (λ n, if String.eqb n "_T" then T else TVar n) UnsetOr.

Lemma unset_or_values (T : ty) (v : value) :
  has_type (UnsetOr_of T) v = true ↔
  v = enum_value _UNSET ∨ has_type T v = true.
Proof.
  change (UnsetOr_of T) with (TUnion [TLiteralEnum "_Unset" "UNSET"; T]).
  rewrite has_type_union. split.
  - intros (t & Ht & Hv). apply elem_of_cons in Ht as [-> | Ht].
    + left. apply has_type_literal_enum, Hv.
    + apply list_elem_of_singleton in Ht as ->. right. exact Hv.
  - intros [-> | Hv].
    + exists (TLiteralEnum "_Unset" "UNSET"). split; [left | reflexivity].
    + exists T. split; [right; left | exact Hv].
Qed.

(** C8, as the code has it. [_Unset] has the single member [UNSET], which
    [_UNSET] names, and a value of [UnsetOr[T]] is that member or a value of
    [T]. The union is not tagged: the two cases exclude each other, and the
    marker differs from every value of [T], for the types [T] that do not
    themselves admit the marker. *)
Theorem unset_sentinel (T : ty)
    (HT : has_type T (enum_value _UNSET) = false) :
  (∀ u : _Unset, u = UNSET)
  ∧ In (DEnum "_Unset" ["UNSET"]) module
  ∧ _UNSET = UNSET
  ∧ (∀ v, has_type (UnsetOr_of T) v = true ↔
          v = enum_value _UNSET ∨ has_type T v = true)
  ∧ (∀ v, has_type (UnsetOr_of T) v = true →
          (v = enum_value _UNSET ∧ has_type T v = false)
          ∨ (v ≠ enum_value _UNSET ∧ has_type T v = true))
  ∧ (∀ v, has_type T v = true → v ≠ enum_value _UNSET).
Proof.
  assert (Hne : ∀ v, has_type T v = true → v ≠ enum_value _UNSET).
  { intros v Hv ->. rewrite HT in Hv. discriminate. }
  split; [intros []; reflexivity |].
  split; [simpl; tauto |]. split; [reflexivity |].
  split; [apply unset_or_values |]. split; [| exact Hne].
  intros v [-> | Hv]%unset_or_values.
  - left. split; [reflexivity | exact HT].
  - right. split; [apply Hne, Hv | exact Hv].
Qed.

Lemma unset_sentinel_witness :
  has_type (TOptional TStr) (enum_value _UNSET) = false
  ∧ (∀ v, has_type (UnsetOr_of (TOptional TStr)) v = true ↔
          v = enum_value _UNSET ∨ has_type (TOptional TStr) v = true)
  ∧ (∀ v, has_type (TOptional TStr) v = true → v ≠ enum_value _UNSET).
Proof.
  split; [reflexivity |].
  destruct (unset_sentinel (TOptional TStr) eq_refl) as (_ & _ & _ & H1 & _ & H2).
  split; [exact H1 | exact H2].
Defined.

(** C8, as stated, fails for the types that admit the marker themselves:
    [_T] is declared without a bound, and at [T = object] the marker is a
    value of [T], so that it belongs to both cases of [UnsetOr[object]]. *)
Lemma unset_not_disjoint_at_object :
  typevar_bound "_T" = None
  ∧ has_type TObject (enum_value _UNSET) = true
  ∧ has_type (UnsetOr_of TObject) (enum_value _UNSET) = true
  ∧ ¬ (∀ T v, has_type T v = true → v ≠ enum_value _UNSET).
Proof.
  split; [reflexivity |]. split; [reflexivity |]. split; [reflexivity |].
  intros H. exact (H TObject (enum_value _UNSET) eq_refl eq_refl).
Qed.

(** ** An implementation of the responder contract *)

(** A responder written with a fourth, defaulted parameter and annotated
    [-> Any]:
    [def on_get(resource, req, resp, fmt=None, /, **kwargs: Any) -> Any]. *)
Definition responder_with_more : signature :=
  {| s_async := false;
     s_posonly := [req_param "resource" TAny; req_param "req" TAny;
                   req_param "resp" TAny; opt_param "fmt" TAny];
     s_params := [];
     s_kwonly := [];
     s_varkw := Some TAny;
     s_ret := TAny |}.

(** C1, as stated, fails on the responder above. It implements
    [ResponderMethod]: it conforms to the contract, and it admits every call
    that the contract admits. Yet it declares four positional parameters,
    not three, it admits a call with a fourth positional argument, and its
    declared result is not confined to [None]. *)
Lemma responder_with_more_conforms :
  callable_le responder_with_more (responder_sig bounds) = true
  ∧ has_type (TRef "ResponderMethod") (VFunc responder_with_more) = true
  ∧ (∀ c, accepts (responder_sig bounds) c = true →
          accepts responder_with_more c = true)
  ∧ length (s_posonly responder_with_more) = 4
  ∧ accepts responder_with_more
      (Call [VNone; a_request; a_response; VStr "json"] ∅) = true
  ∧ accepts (responder_sig bounds)
      (Call [VNone; a_request; a_response; VStr "json"] ∅) = false
  ∧ has_type (s_result responder_with_more) (VInt 5) = true
  ∧ has_type (s_result (responder_sig bounds)) (VInt 5) = false.
Proof.
  split; [vm_compute; reflexivity |].
  split; [vm_compute; reflexivity |].
  split; [| repeat split; vm_compute; reflexivity].
  intros [args kw] (r & q & p & Hargs & _)%responder_accepts.
  simpl in Hargs. subst args.
  unfold accepts, well_typed, extra_ok; cbn.
  apply extra_any.
Qed.

(** ** Response callbacks *)

Definition sync_callback : ty := TCallable [] TNone.
Definition async_callback : ty := TCallable [] (TAwaitable TNone).

Lemma response_callbacks_values (v : value) :
  has_type ResponseCallbacks v = true ↔
  ∃ cb tag,
    v = VTuple [cb; VBool tag] ∧
    has_type (if tag then async_callback else sync_callback) cb = true.
Proof.
  unfold ResponseCallbacks. rewrite has_type_union. split.
  - intros (t & Ht & Hv). apply elem_of_cons in Ht as [-> | Ht].
    + apply has_type_tuple in Hv as (vs & -> & HF). args_of HF.
      destruct a0; try discriminate. destruct b; try discriminate.
      exists a, false. split; [reflexivity | exact Ha].
    + apply list_elem_of_singleton in Ht as ->.
      apply has_type_tuple in Hv as (vs & -> & HF). args_of HF.
      destruct a0; try discriminate. destruct b; try discriminate.
      exists a, true. split; [reflexivity | exact Ha].
  - intros (cb & [|] & -> & Hcb).
    + exists (TTuple [async_callback; TLiteralBool true]).
      split; [right; left |]. apply has_type_tuple.
      eexists. split; [reflexivity |]. args_ok.
    + exists (TTuple [sync_callback; TLiteralBool false]).
      split; [left |]. apply has_type_tuple.
      eexists. split; [reflexivity |]. args_ok.
Qed.

Lemma has_type_callable (args : list ty) (ret : ty) (v : value) :
  has_type (TCallable args ret) v = true ↔
  ∃ f, v = VFunc f ∧ callable_le f (callable_sig args ret) = true.
Proof.
  destruct v; simpl; try (split; [discriminate | intros (? & [=] & _)]).
  split; [eauto | intros (? & [= <-] & H); exact H].
Qed.

(** A callable that conforms to a contract without parameters can be called
    without arguments. *)
Lemma mapM_default_all (ps : list param) :
  forallb p_default ps = true →
  mapM default_of ps = Some (map (λ p, (p, Default)) ps).
Proof.
  induction ps as [|p ps IH]; [reflexivity |]. simpl.
  intros [Hp Hps]%andb_true_iff. rewrite (IH Hps).
  unfold default_of. rewrite Hp. reflexivity.
Qed.

Lemma nullary_callable (f : signature) (ret : ty) :
  callable_le f (callable_sig [] ret) = true →
  is_Some (bind f (Call [] ∅)).
Proof.
  unfold callable_le, callable_sig, positionals. simpl.
  rewrite !andb_true_iff. intros (((((Hpos & _) & Hkw) & _) & _) & _).
  rewrite forallb_app, andb_true_iff in Hpos. destruct Hpos as [Hpo Hpa].
  rewrite !forallb_forall in Hpo, Hpa, Hkw.
  assert (Hd : ∀ ps, forallb p_default ps = true →
            mapM (by_keyword (∅ : gmap string value)) ps
            = Some (map (λ p, (p, Default)) ps)).
  { intros ps Hps. rewrite <- (mapM_default_all _ Hps).
    apply mapM_ext. intros p. unfold by_keyword. rewrite lookup_empty.
    reflexivity. }
  assert (He : ∀ names, foldr delete (∅ : gmap string value) names = ∅).
  { induction names as [|n names IH]; [reflexivity |].
    simpl. rewrite IH. apply delete_empty. }
  unfold bind. rewrite !fill_spec. simpl.
  rewrite !drop_nil, !drop_0. simpl. rewrite !zip_with_nil_r. simpl.
  rewrite mapM_default_all, Hd, He.
  - simpl. destruct (s_varkw f); [eexists; reflexivity |].
    destruct (decide _) as [|Hne]; [eexists; reflexivity | destruct Hne; reflexivity].
  - apply forallb_forall. intros p Hp.
    apply (Hpo (p, false)), in_map_iff. eauto.
  - rewrite forallb_app. apply andb_true_iff. split; apply forallb_forall.
    + intros p Hp. apply (Hpa (p, true)), in_map_iff. eauto.
    + intros p Hp. specialize (Hkw p Hp). rewrite orb_false_r in Hkw. exact Hkw.
Qed.

(** C9, as the code has it. Every value of [ResponseCallbacks] is a pair of
    a callback and a boolean tag; with the tag [False] the callback conforms
    to [Callable[[], None]], with the tag [True] to
    [Callable[[], Awaitable[None]]]. Either way the callback can be called
    without arguments. A callback whose declared result is [None] is never
    paired with [True], and a callback whose declared result is an awaitable
    of [None] is never paired with [False]; so for a callback annotated
    [-> None] the tag says whether it is a coroutine function. The tag
    follows the declared type of the callback and nothing else. *)
Theorem response_callbacks_tagged :
  (∀ v, has_type ResponseCallbacks v = true ↔
     ∃ cb tag,
       v = VTuple [cb; VBool tag] ∧
       has_type (if tag then async_callback else sync_callback) cb = true)
  ∧ (∀ cb tag,
       has_type ResponseCallbacks (VTuple [cb; VBool tag]) = true →
       ∃ f, cb = VFunc f ∧ is_Some (bind f (Call [] ∅)))
  ∧ (∀ f tag,
       has_type ResponseCallbacks (VTuple [VFunc f; VBool tag]) = true →
       (s_result f = TNone → tag = false)
       ∧ (s_result f = TAwaitable TNone → tag = true))
  ∧ (∀ f tag,
       has_type ResponseCallbacks (VTuple [VFunc f; VBool tag]) = true →
       s_ret f = TNone → tag = s_async f)
  ∧ (∀ v, has_type (s_result (callable_sig [] TNone)) v = true ↔ v = VNone)
  ∧ (∀ v, has_type (s_result (callable_sig [] (TAwaitable TNone))) v = true ↔
          v = VAwaitable VNone).
Proof.
  assert (Htag : ∀ f tag,
            has_type ResponseCallbacks (VTuple [VFunc f; VBool tag]) = true →
            (s_result f = TNone → tag = false)
            ∧ (s_result f = TAwaitable TNone → tag = true)).
  { intros f tag (cb' & tag' & [= <- <-] & H)%response_callbacks_values.
    destruct tag; apply has_type_callable in H as (f' & [= <-] & Hf);
      apply callable_le_result in Hf; (split; [| reflexivity || idtac]);
      intros Hr; rewrite Hr in Hf; try reflexivity; discriminate. }
  split; [exact response_callbacks_values |].
  split; [| split; [exact Htag | split; [| split]]].
  - intros cb tag (cb' & tag' & [= <- <-] & H)%response_callbacks_values.
    destruct tag; apply has_type_callable in H as (f & -> & Hf);
      exists f; (split; [reflexivity |]); eapply nullary_callable, Hf.
  - intros f tag [Hsync Hasync]%Htag Hret. unfold s_result in Hsync, Hasync.
    rewrite Hret in Hsync, Hasync.
    destruct (s_async f); [apply Hasync | apply Hsync]; reflexivity.
  - apply has_type_none.
  - apply has_type_awaitable_none.
Qed.

(** A plain function without parameters that is annotated [-> Any]:
    [def callback() -> Any]. *)
Definition any_callback : signature := Signature false [] [] [] None TAny.

(** C9, as stated, fails on such a callback: it is synchronous, and the
    pair of it and [True] is a value of [ResponseCallbacks], as is the pair
    of it and [False]. *)
Lemma sync_callback_tagged_true :
  s_async any_callback = false
  ∧ has_type (s_result any_callback) VNone = true
  ∧ has_type ResponseCallbacks (VTuple [VFunc any_callback; VBool true]) = true
  ∧ has_type ResponseCallbacks (VTuple [VFunc any_callback; VBool false]) = true.
Proof. repeat split. Qed.

(** A plain function and a coroutine function without parameters. *)
Definition plain_callback : value :=
  VFunc (Signature false [] [] [] None TNone).
Definition coroutine_callback : value :=
  VFunc (Signature true [] [] [] None TNone).

Example response_callbacks_examples :
  has_type ResponseCallbacks (VTuple [plain_callback; VBool false]) = true
  ∧ has_type ResponseCallbacks (VTuple [plain_callback; VBool true]) = false
  ∧ has_type ResponseCallbacks (VTuple [coroutine_callback; VBool true]) = true
  ∧ has_type ResponseCallbacks (VTuple [coroutine_callback; VBool false]) = false.
Proof. repeat split; vm_compute; reflexivity. Qed.

(** ** The synchronous and the asynchronous family *)

(** The callable contracts of the module, by name. *)
Definition contracts : list (string * signature) :=
  omap (λ d, pair (decl_name d) <$> contract d) module.

(** A contract is synchronous when its result is not an awaitable. *)
Definition is_sync (s : signature) : bool :=
  match s_result s with
  | TAwaitable _ => false
  | _ => true
  end.

Definition sync_contracts : list (string * signature) :=
  List.filter (λ ns, is_sync (snd ns)) contracts.

(** The shape of a contract: its parameters and its result, a coroutine
    function being a function that returns an awaitable. *)
Definition shape (s : signature) : signature :=
  {| s_async := false;
     s_posonly := s_posonly s;
     s_params := s_params s;
     s_kwonly := s_kwonly s;
     s_varkw := s_varkw s;
     s_ret := s_result s |}.

(** The ASGI type variable that stands where a WSGI one does. *)
Definition asgi_var (n : string) : ty :=
  if String.eqb n "_REQ" then _A_REQ
  else if String.eqb n "_RESP" then _A_RESP
  else TVar n.

(** The asynchronous form of a synchronous contract: the same parameters
    over the ASGI request and response, the result made awaitable. *)
Definition asyncify (s : signature) : signature :=
  let s' := subst_sig asgi_var s in
  {| s_async := false;
     s_posonly := s_posonly s';
     s_params := s_params s';
     s_kwonly := s_kwonly s';
     s_varkw := s_varkw s';
     s_ret := TAwaitable (s_result s') |}.

Definition has_async_counterpart (s : signature) : bool :=
  existsb (λ ns, bool_decide (shape (snd ns) = asyncify s)) contracts.

Lemma has_async_counterpart_spec (s : signature) :
  has_async_counterpart s = true ↔
  ∃ name' s', In (name', s') contracts ∧ shape s' = asyncify s.
Proof.
  unfold has_async_counterpart. rewrite existsb_exists. split.
  - intros ([n s'] & Hin & H%bool_decide_eq_true). eauto.
  - intros (n & s' & Hin & H). exists (n, s').
    split; [exact Hin | apply bool_decide_eq_true, H].
Qed.

Definition with_async_twin : list string :=
  ["SinkCallable"; "ResponderMethod"; "ResponderCallable";
   "ProcessRequestMethod"; "ProcessResourceMethod"; "ProcessResponseMethod"].

(** C7, as the code has it. The module declares twelve synchronous callable
    contracts ([StartResponse] being the alias of lines 47-48). Six of them,
    the sink, the two responder protocols and the three middleware methods,
    have an asynchronous counterpart of the same shape: the declaration
    named [Asgi] followed by their name has the same parameters, over the
    ASGI request and response, and an awaitable of the same result. The
    other six have no declaration of that shape in the module. *)
Theorem async_counterparts :
  map fst sync_contracts =
    ["StartResponse"; "ErrorHandler"; "ErrorSerializer"; "SinkCallable";
     "ResponderMethod"; "ResponderCallable"; "ProcessRequestMethod";
     "ProcessResourceMethod"; "ProcessResponseMethod"; "FindMethod";
     "SerializeSync"; "DeserializeSync"]
  ∧ (∀ name s, In (name, s) sync_contracts →
       (∃ name' s', In (name', s') contracts ∧ shape s' = asyncify s) ↔
       In name with_async_twin)
  ∧ (∀ name, In name with_async_twin →
       ∃ s s', contract_of name = Some s ∧
               contract_of ("Asgi" ++ name) = Some s' ∧
               shape s' = asyncify s).
Proof.
  split; [reflexivity |]. split.
  - intros name s Hin. rewrite <- has_async_counterpart_spec.
    vm_compute in Hin.
    repeat (destruct Hin as [[= <- <-] | Hin];
      [split;
       [ intros H; vm_compute in H; try discriminate H; simpl; tauto
       | intros H; simpl in H;
         repeat (destruct H as [H | H]; [try discriminate H |]);
         try contradiction; vm_compute; reflexivity ]
      |]).
    destruct Hin.
  - intros name Hin. simpl in Hin.
    repeat (destruct Hin as [<- | Hin];
      [eexists; eexists; split; [reflexivity |]; split; reflexivity |]).
    destruct Hin.
Qed.

(** C7, as stated, fails on the error handler: no declaration of the module
    has the shape of [ErrorHandler] made asynchronous. [AsgiErrorHandler]
    differs in its response parameter and in its keyword-only [ws]. The
    error serializer, the routing lookup and the media contracts have no
    asynchronous declaration at all. *)
Lemma error_handler_has_no_async_twin :
  contract_of "ErrorHandler" = Some error_handler_contract
  ∧ has_async_counterpart error_handler_contract = false
  ∧ shape (proto_call AsgiErrorHandler) ≠ asyncify error_handler_contract
  ∧ ¬ (∀ name s, In (name, s) sync_contracts →
         ∃ name' s', In (name', s') contracts ∧ shape s' = asyncify s).
Proof.
  split; [reflexivity |]. split; [vm_compute; reflexivity |].
  split; [discriminate |].
  intros H.
  specialize (H "ErrorHandler" error_handler_contract).
  apply has_async_counterpart_spec in H; [vm_compute in H; discriminate H |].
  vm_compute. tauto.
Qed.

(** ** Positional-only parameters *)

Definition rename_param (g : string → string) (p : param) : param :=
  Param (g (p_name p)) (p_type p) (p_default p).

(** The same signature with other names before the [/]. *)
Definition rename_posonly (g : string → string) (s : signature) : signature :=
  {| s_async := s_async s;
     s_posonly := map (rename_param g) (s_posonly s);
     s_params := s_params s;
     s_kwonly := s_kwonly s;
     s_varkw := s_varkw s;
     s_ret := s_ret s |}.

Definition rename_bound (g : string → string) (pa : param * arg) : param * arg :=
  (rename_param g (fst pa), snd pa).

Lemma mapM_default_rename (g : string → string) (ps : list param) :
  mapM default_of (map (rename_param g) ps)
  = map (rename_bound g) <$> mapM default_of ps.
Proof.
  assert (Hc : ∀ (f : param → option (param * arg)) x l,
            mapM f (x :: l) = f x ≫= λ y, mapM f l ≫= λ k, mret (y :: k))
    by reflexivity.
  induction ps as [|p ps IH]; [reflexivity |].
  cbn [map]. rewrite !Hc, IH.
  assert (default_of (rename_param g p) = rename_bound g <$> default_of p)
    as -> by (unfold default_of; simpl; destruct (p_default p); reflexivity).
  destruct (default_of p); [| reflexivity].
  destruct (mapM default_of ps); reflexivity.
Qed.

Lemma arg_ok_rename (g : string → string) (l : list (param * arg)) :
  forallb arg_ok (map (rename_bound g) l) = forallb arg_ok l.
Proof.
  induction l as [|[p a] l IH]; [reflexivity |].
  simpl. rewrite IH. reflexivity.
Qed.

Lemma zip_rename (g : string → string) (ps : list param) (vs : list arg) :
  zip (map (rename_param g) ps) vs = map (rename_bound g) (zip ps vs).
Proof.
  revert vs. induction ps as [|p ps IH]; intros [|v vs]; simpl;
    try reflexivity. rewrite IH. reflexivity.
Qed.

(** The names before the [/] play no part in the calls a signature admits. *)
Lemma accepts_rename (g : string → string) (s : signature) (c : call) :
  accepts (rename_posonly g s) c = accepts s c.
Proof.
  unfold accepts, bind. rewrite !fill_spec. simpl.
  rewrite length_map, skipn_map, zip_rename, mapM_default_rename.
  destruct (drop _ (drop _ (c_args c))); [| reflexivity].
  destruct (existsb _ _); [reflexivity |].
  destruct (mapM default_of _) as [d1|]; [| reflexivity]. simpl.
  destruct (mapM (by_keyword _) _) as [k|]; [| reflexivity]. simpl.
  assert (Hok : ∀ extra,
    well_typed (rename_posonly g s)
      (Binding (map (rename_bound g) (zip (s_posonly s) (Given <$> c_args c))
                ++ map (rename_bound g) d1
                ++ zip (s_params s)
                       (Given <$> drop (length (s_posonly s)) (c_args c))
                ++ k) extra)
    = well_typed s
        (Binding (zip (s_posonly s) (Given <$> c_args c) ++ d1
                  ++ zip (s_params s)
                         (Given <$> drop (length (s_posonly s)) (c_args c))
                  ++ k) extra)).
  { intros extra. unfold well_typed, extra_ok. simpl.
    rewrite !forallb_app, !arg_ok_rename. reflexivity. }
  destruct (s_varkw s) eqn:Ev; [apply Hok |].
  destruct (decide _); [apply Hok | reflexivity].
Qed.

(** Without positional-or-keyword parameters, every parameter before the
    [/] takes a positional argument of the call, and only those do. *)
Lemma bind_leading (s : signature) (c : call) (b : binding) :
  s_params s = [] →
  Forall (λ p, p_default p = false) (s_posonly s) →
  bind s c = Some b →
  length (c_args c) = length (s_posonly s) ∧
  ∃ k : list (param * arg),
    b_params b = (zip (s_posonly s) (Given <$> c_args c) ++ k)%list ∧
    length k = length (s_kwonly s).
Proof.
  intros Hp Hreq. unfold bind. rewrite fill_spec, Hp. simpl.
  destruct (drop (length (s_posonly s)) (c_args c)) eqn:Ed; [| discriminate].
  apply drop_nil_inv in Ed.
  rewrite mapM_default_required by (apply Forall_drop, Hreq).
  destruct (drop (length (c_args c)) (s_posonly s)) eqn:Ed'; [| discriminate].
  apply drop_nil_inv in Ed'. simpl.
  destruct (mapM (by_keyword (c_kwargs c)) (s_kwonly s)) as [k|] eqn:Ek;
    [| discriminate].
  apply length_mapM in Ek. simpl.
  assert (Hb : ∀ extra,
            Some (Binding (zip (s_posonly s) (Given <$> c_args c) ++ k) extra)
            = Some b →
            length (c_args c) = length (s_posonly s) ∧
            ∃ k' : list (param * arg),
              b_params b = (zip (s_posonly s) (Given <$> c_args c) ++ k')%list ∧
              length k' = length (s_kwonly s)).
  { intros extra [= <-]. split; [lia |]. exists k. split; [reflexivity | lia]. }
  destruct (s_varkw s); [apply Hb |].
  destruct (decide _); [apply Hb | discriminate].
Qed.

(** The same signature with other names for the positional-or-keyword
    parameters. *)
Definition rename_params (g : string → string) (s : signature) : signature :=
  {| s_async := s_async s;
     s_posonly := s_posonly s;
     s_params := map (rename_param g) (s_params s);
     s_kwonly := s_kwonly s;
     s_varkw := s_varkw s;
     s_ret := s_ret s |}.

(** [admits_calls_of f c]: the callable [f] can be called in every way the
    contract [c] allows. *)
Definition admits_calls_of (f c : signature) : Prop :=
  ∀ call, accepts c call = true → accepts f call = true.

(** A call without positional arguments that does not name a required
    positional-or-keyword parameter is refused. *)
Lemma bind_missing_keyword (s : signature) (kw : gmap string value)
    (p : param) (ps : list param) :
  s_posonly s = [] → s_params s = p :: ps →
  p_default p = false → kw !! p_name p = None →
  accepts s (Call [] kw) = false.
Proof.
  intros Hpos Hpar Hd Hk. unfold accepts, bind. rewrite Hpos, Hpar.
  cbn [fill c_args c_kwargs existsb app].
  assert (Hc : ∀ (f : param → option (param * arg)) x l,
            mapM f (x :: l) = f x ≫= λ y, mapM f l ≫= λ k, mret (y :: k))
    by reflexivity.
  assert (by_keyword kw p = None) as Hp
    by (unfold by_keyword, default_of; rewrite Hk, Hd; reflexivity).
  rewrite Hc, Hp. reflexivity.
Qed.

(** A protocol closes its parameter list with [/] when it declares
    positional-only parameters and no positional-or-keyword one. *)
Definition closes_with_slash (p : protocol) : bool :=
  negb (bool_decide (s_posonly (proto_call p) = []))
  && bool_decide (s_params (proto_call p) = []).

(** C10, as the code has it. Eight of the ten protocols close their
    parameter list with [/]. For these, every accepted call fills the
    leading parameters from its positional arguments, one each, so that no
    keyword reaches them; the names before the [/] play no part in the calls
    a contract admits; and a callable that can be called in every way such
    a contract allows still can under any other names for the parameters it
    declares before its own [/]. [FindMethod] and [SerializeSync] have no
    [/]: their parameters are positional-or-keyword and may be passed by
    keyword, so that the names are part of these two contracts: under other
    names the same keyword calls are refused. *)
Theorem positional_only_contracts :
  map proto_name protocols =
    ["AsgiErrorHandler"; "SinkCallable"; "AsgiSinkCallable";
     "ResponderMethod"; "ResponderCallable"; "AsgiResponderMethod";
     "AsgiResponderCallable"; "AsgiResponderWsCallable"; "FindMethod";
     "SerializeSync"]
  ∧ map proto_name (List.filter closes_with_slash protocols) =
      ["AsgiErrorHandler"; "SinkCallable"; "AsgiSinkCallable";
       "ResponderMethod"; "ResponderCallable"; "AsgiResponderMethod";
       "AsgiResponderCallable"; "AsgiResponderWsCallable"]
  ∧ (∀ p, In p protocols → closes_with_slash p = true →
       ∀ σ c b, bind (subst_sig σ (proto_call p)) c = Some b →
         length (c_args c) = length (s_posonly (proto_call p)) ∧
         ∃ k : list (param * arg),
           b_params b
           = (zip (s_posonly (subst_sig σ (proto_call p))) (Given <$> c_args c)
              ++ k)%list ∧
           length k = length (s_kwonly (proto_call p)))
  ∧ (∀ p, In p protocols →
       ∀ σ g c, accepts (rename_posonly g (subst_sig σ (proto_call p))) c
                = accepts (subst_sig σ (proto_call p)) c)
  ∧ (∀ p, In p protocols →
       ∀ σ f g,
         admits_calls_of (rename_posonly g f) (subst_sig σ (proto_call p))
         ↔ admits_calls_of f (subst_sig σ (proto_call p)))
  ∧ (s_posonly (proto_call FindMethod) = []
     ∧ map p_name (s_params (proto_call FindMethod)) = ["uri"; "req"]
     ∧ s_posonly (proto_call SerializeSync) = []
     ∧ map p_name (s_params (proto_call SerializeSync))
       = ["media"; "content_type"])
  ∧ (∀ σ uri req,
       has_type TStr uri = true →
       has_type (TOptional (σ "_REQ")) req = true →
       accepts (find_sig σ) (Call [] {[ "uri" := uri; "req" := req ]}) = true)
  ∧ (∀ media, accepts serialize_sig (Call [] {[ "media" := media ]}) = true)
  ∧ (∀ σ g uri req,
       g "uri" ≠ "uri" → g "uri" ≠ "req" →
       accepts (rename_params g (find_sig σ))
               (Call [] {[ "uri" := uri; "req" := req ]}) = false)
  ∧ (∀ g media,
       g "media" ≠ "media" →
       accepts (rename_params g serialize_sig)
               (Call [] {[ "media" := media ]}) = false).
Proof.
  split; [reflexivity |]. split; [reflexivity |].
  split; [| split; [| split; [| split; [| split; [| split; [| split]]]]]].
  - intros p Hin Hp σ c b Hb. simpl in Hin.
    repeat (destruct Hin as [<- | Hin];
      [first [ discriminate Hp
             | apply bind_leading in Hb;
               [exact Hb | reflexivity | repeat constructor] ] |]).
    destruct Hin.
  - intros p _ σ g c. apply accepts_rename.
  - intros p _ σ f g. unfold admits_calls_of.
    split; intros H c Hc; [rewrite <- (accepts_rename g) | rewrite accepts_rename];
      apply H, Hc.
  - repeat split.
  - intros σ u r Hu Hr. apply find_accepts. exists u, r. auto.
  - intros m. apply serialize_accepts. exists m. auto.
  - intros σ g u r H1 H2.
    apply (bind_missing_keyword (rename_params g (find_sig σ)) _
             (rename_param g (req_param "uri" TStr)) _
             eq_refl eq_refl eq_refl).
    simpl. rewrite lookup_insert_ne by (intros E; apply H1; symmetry; exact E).
    apply lookup_singleton_ne. intros E; apply H2; symmetry; exact E.
  - intros g m H1.
    apply (bind_missing_keyword (rename_params g serialize_sig) _
             (rename_param g (req_param "media" TAny)) _
             eq_refl eq_refl eq_refl).
    simpl. apply lookup_singleton_ne. intros E; apply H1; symmetry; exact E.
Qed.

(** C10, as stated, fails on [FindMethod] and on [SerializeSync]: neither
    protocol has a [/], so that none of their parameters is positional-only.
    The call [find(uri="/items", req=None)] passes both leading parameters
    by keyword and is admitted, and so is [serialize(media=1)]; once the
    parameters are called [path] and [request], or [obj] and [kind], the
    same calls are refused. *)
Lemma find_method_by_keyword :
  In FindMethod protocols
  ∧ closes_with_slash FindMethod = false
  ∧ s_posonly (proto_call FindMethod) = []
  ∧ accepts (find_sig bounds)
      (Call [] {[ "uri" := VStr "/items"; "req" := VNone ]}) = true
  ∧ accepts (rename_params
               (λ n, if String.eqb n "uri" then "path" else "request")
               (find_sig bounds))
      (Call [] {[ "uri" := VStr "/items"; "req" := VNone ]}) = false
  ∧ In SerializeSync protocols
  ∧ closes_with_slash SerializeSync = false
  ∧ s_posonly (proto_call SerializeSync) = []
  ∧ accepts serialize_sig (Call [] {[ "media" := VInt 1 ]}) = true
  ∧ accepts (rename_params
               (λ n, if String.eqb n "media" then "obj" else "kind")
               serialize_sig)
      (Call [] {[ "media" := VInt 1 ]}) = false
  ∧ ¬ (∀ p, In p protocols → s_params (proto_call p) = []).
Proof.
  split; [simpl; tauto |]. split; [reflexivity |]. split; [reflexivity |].
  split; [vm_compute; reflexivity |]. split; [vm_compute; reflexivity |].
  split; [simpl; tauto |]. split; [reflexivity |]. split; [reflexivity |].
  split; [vm_compute; reflexivity |]. split; [vm_compute; reflexivity |].
  intros H. specialize (H FindMethod). simpl in H.
  discriminate H. tauto.
Qed.

(** ** The remaining callbacks *)

Definition ws_responder_sig (σ : string → ty) : signature :=
  subst_sig σ (proto_call AsgiResponderWsCallable).

(** X1. [AsgiResponderWsCallable] (lines 157-158) is called with the request
    and a WebSocket as its two positional arguments and with any keyword
    arguments, and its call returns an awaitable of [None]. *)
Theorem ws_responder_contract (σ : string → ty) :
  (∀ c, accepts (ws_responder_sig σ) c = true ↔
     ∃ req ws,
       c_args c = [req; ws] ∧
       has_type (σ "_A_REQ") req = true ∧ has_type WebSocket ws = true)
  ∧ (∀ v, has_type (s_result (ws_responder_sig σ)) v = true ↔
          v = VAwaitable VNone).
Proof.
  assert (Hs : posonly_required (ws_responder_sig σ))
    by (repeat split; repeat constructor).
  split; [| apply has_type_awaitable_none].
  intros c. rewrite (accepts_posonly _ _ Hs). simpl. split.
  - intros [HF _]. args_of HF. eauto.
  - intros (q & w & -> & Hq & Hw). split; [args_ok |].
    intros k v _. reflexivity.
Qed.

Definition process_resource_contract : signature :=
  callable_sig [_REQ; _RESP; Resource; TDict TStr TAny] TNone.
Definition process_response_contract : signature :=
  callable_sig [_REQ; _RESP; Resource; TBool] TNone.
Definition error_serializer_contract : signature :=
  callable_sig [_REQ; _RESP; HTTPError] TNone.

(** X2. The WSGI middleware methods (lines 137-138) and the error
    serializer (line 97) are called with positional arguments only:
    [process_resource] with the request, the response, the resource (any
    object) and a parameter dictionary with string keys;
    [process_response] with the request, the response, the resource and a
    boolean; an error serializer with the request, the response and an
    [HTTPError]. Each returns [None]. *)
Theorem middleware_contracts (σ : string → ty) :
  contract_of "ProcessResourceMethod" = Some process_resource_contract
  ∧ contract_of "ProcessResponseMethod" = Some process_response_contract
  ∧ contract_of "ErrorSerializer" = Some error_serializer_contract
  ∧ (∀ c, accepts (subst_sig σ process_resource_contract) c = true ↔
       ∃ req resp resource items,
         c = Call [req; resp; resource; VDict items] ∅ ∧
         has_type (σ "_REQ") req = true ∧ has_type (σ "_RESP") resp = true ∧
         Forall str_key items)
  ∧ (∀ c, accepts (subst_sig σ process_response_contract) c = true ↔
       ∃ req resp resource succeeded,
         c = Call [req; resp; resource; VBool succeeded] ∅ ∧
         has_type (σ "_REQ") req = true ∧ has_type (σ "_RESP") resp = true)
  ∧ (∀ c, accepts (subst_sig σ error_serializer_contract) c = true ↔
       ∃ req resp exception,
         c = Call [req; resp; exception] ∅ ∧
         has_type (σ "_REQ") req = true ∧ has_type (σ "_RESP") resp = true ∧
         has_type HTTPError exception = true)
  ∧ (∀ v, has_type (s_result (subst_sig σ process_resource_contract)) v = true
          ↔ v = VNone)
  ∧ (∀ v, has_type (s_result (subst_sig σ process_response_contract)) v = true
          ↔ v = VNone)
  ∧ (∀ v, has_type (s_result (subst_sig σ error_serializer_contract)) v = true
          ↔ v = VNone).
Proof.
  split; [reflexivity |]. split; [reflexivity |]. split; [reflexivity |].
  split; [| split; [| split; [| repeat split; apply has_type_none]]].
  - assert (Hs : posonly_required (subst_sig σ process_resource_contract))
      by (repeat split; repeat constructor).
    intros [args kw]. rewrite (accepts_posonly _ _ Hs). simpl. split.
    + intros [HF ->]. args_of HF.
      apply (str_keyed TAny) in Ha2 as (items & -> & Hi).
      exists a, a0, a1, items. repeat (split; [assumption || reflexivity |]).
      eapply Forall_impl; [exact Hi |]. cbv beta. tauto.
    + intros (q & p & r & items & [= -> ->] & Hq & Hp & Hi).
      split; [| reflexivity].
      assert (has_type (TDict TStr TAny) (VDict items) = true).
      { apply str_keyed. exists items. split; [reflexivity |].
        eapply Forall_impl; [exact Hi |]. cbv beta. auto. }
      args_ok.
  - assert (Hs : posonly_required (subst_sig σ process_response_contract))
      by (repeat split; repeat constructor).
    intros [args kw]. rewrite (accepts_posonly _ _ Hs). simpl. split.
    + intros [HF ->]. args_of HF. destruct a2; try discriminate. eauto 10.
    + intros (q & p & r & b & [= -> ->] & Hq & Hp).
      split; [args_ok | reflexivity].
  - assert (Hs : posonly_required (subst_sig σ error_serializer_contract))
      by (repeat split; repeat constructor).
    intros [args kw]. rewrite (accepts_posonly _ _ Hs). simpl. split.
    + intros [HF ->]. args_of HF. eauto 10.
    + intros (q & p & e & [= -> ->] & Hq & Hp & He).
      split; [args_ok | reflexivity].
Qed.

(** * Further properties of the declarations *)

(** ** Bound responders *)

Definition responder_callable_sig (σ : string → ty) : signature :=
  subst_sig σ (proto_call ResponderCallable).
Definition asgi_responder_callable_sig (σ : string → ty) : signature :=
  subst_sig σ (proto_call AsgiResponderCallable).

Lemma bool_eq_iff (a b : bool) : (a = true ↔ b = true) → a = b.
Proof.
  intros [H1 H2]. destruct a, b; try reflexivity.
  - symmetry. apply H1. reflexivity.
  - apply H2. reflexivity.
Qed.

(** X3. Passing the resource first to a [ResponderMethod] leaves a
    [ResponderCallable]: a call with the resource followed by further
    arguments is admitted by the former exactly when the call with the
    further arguments alone is admitted by the latter, whatever the
    resource; likewise for the two ASGI protocols. A call without any
    positional argument is admitted by neither. *)
Theorem bound_responder_call (σ : string → ty) :
  (∀ resource args kw,
     accepts (responder_sig σ) (Call (resource :: args) kw)
     = accepts (responder_callable_sig σ) (Call args kw))
  ∧ (∀ resource args kw,
       accepts (asgi_responder_sig σ) (Call (resource :: args) kw)
       = accepts (asgi_responder_callable_sig σ) (Call args kw))
  ∧ (∀ kw, accepts (responder_sig σ) (Call [] kw) = false
           ∧ accepts (responder_callable_sig σ) (Call [] kw) = false
           ∧ accepts (asgi_responder_sig σ) (Call [] kw) = false
           ∧ accepts (asgi_responder_callable_sig σ) (Call [] kw) = false).
Proof.
  assert (H1 : posonly_required (responder_sig σ))
    by (repeat split; repeat constructor).
  assert (H2 : posonly_required (responder_callable_sig σ))
    by (repeat split; repeat constructor).
  assert (H3 : posonly_required (asgi_responder_sig σ))
    by (repeat split; repeat constructor).
  assert (H4 : posonly_required (asgi_responder_callable_sig σ))
    by (repeat split; repeat constructor).
  split; [| split].
  - intros r args kw. apply bool_eq_iff.
    rewrite (accepts_posonly _ _ H1), (accepts_posonly _ _ H2). simpl.
    rewrite Forall2_cons. simpl. tauto.
  - intros r args kw. apply bool_eq_iff.
    rewrite (accepts_posonly _ _ H3), (accepts_posonly _ _ H4). simpl.
    rewrite Forall2_cons. simpl. tauto.
  - intros kw. repeat split.
Qed.

(** ** The [Callable] aliases *)

Lemma alias_posonly (σ : string → ty) (args : list ty) (ret : ty) :
  posonly_required (subst_sig σ (callable_sig args ret)).
Proof.
  repeat split. simpl. induction args as [|t args IH]; constructor; auto.
Qed.

Lemma alias_accepts (σ : string → ty) (args : list ty) (ret : ty) (c : call) :
  accepts (subst_sig σ (callable_sig args ret)) c = true ↔
  c_kwargs c = ∅ ∧
  Forall2 (λ t v, has_type (subst σ t) v = true) args (c_args c).
Proof.
  rewrite (accepts_posonly _ _ (alias_posonly σ args ret)). simpl.
  assert (H : ∀ vs,
    Forall2 (λ p v, has_type (p_type p) v = true)
            (map (subst_param σ) (map (req_param "") args)) vs
    ↔ Forall2 (λ t v, has_type (subst σ t) v = true) args vs).
  { induction args as [|t args IH]; intros [|v vs]; simpl.
    - split; constructor.
    - split; inversion 1.
    - split; inversion 1.
    - rewrite !Forall2_cons, IH. reflexivity. }
  rewrite H. tauto.
Qed.

Definition process_request_contract : signature :=
  callable_sig [_REQ; _RESP] TNone.
Definition asgi_process_request_contract : signature :=
  callable_sig [_A_REQ; _A_RESP] (TAwaitable TNone).
Definition asgi_process_resource_contract : signature :=
  callable_sig [_A_REQ; _A_RESP; Resource; TDict TStr TAny] (TAwaitable TNone).
Definition asgi_process_response_contract : signature :=
  callable_sig [_A_REQ; _A_RESP; Resource; TBool] (TAwaitable TNone).
Definition asgi_process_request_ws_contract : signature :=
  callable_sig [_A_REQ; WebSocket] (TAwaitable TNone).
Definition asgi_process_resource_ws_contract : signature :=
  callable_sig [_A_REQ; WebSocket; Resource; TDict TStr TAny]
               (TAwaitable TNone).

(** X4. [process_request] (line 136) and the middleware methods of the
    ASGI family (lines 163-171) are called with positional arguments only
    and with no keyword: [process_request] with the request and the
    response; [process_resource] with these, the resource (any object) and
    a parameter dictionary with string keys; [process_response] with the
    request, the response, the resource and a boolean; the two WebSocket
    variants with a WebSocket in the place of the response. The WSGI method
    returns [None], each ASGI method an awaitable of [None]. *)
Theorem asgi_middleware_contracts (σ : string → ty) :
  (contract_of "ProcessRequestMethod" = Some process_request_contract
   ∧ contract_of "AsgiProcessRequestMethod"
     = Some asgi_process_request_contract
   ∧ contract_of "AsgiProcessResourceMethod"
     = Some asgi_process_resource_contract
   ∧ contract_of "AsgiProcessResponseMethod"
     = Some asgi_process_response_contract
   ∧ contract_of "AsgiProcessRequestWsMethod"
     = Some asgi_process_request_ws_contract
   ∧ contract_of "AsgiProcessResourceWsMethod"
     = Some asgi_process_resource_ws_contract)
  ∧ (∀ c, accepts (subst_sig σ process_request_contract) c = true ↔
       ∃ req resp,
         c = Call [req; resp] ∅ ∧
         has_type (σ "_REQ") req = true ∧ has_type (σ "_RESP") resp = true)
  ∧ (∀ c, accepts (subst_sig σ asgi_process_request_contract) c = true ↔
       ∃ req resp,
         c = Call [req; resp] ∅ ∧
         has_type (σ "_A_REQ") req = true ∧
         has_type (σ "_A_RESP") resp = true)
  ∧ (∀ c, accepts (subst_sig σ asgi_process_resource_contract) c = true ↔
       ∃ req resp resource items,
         c = Call [req; resp; resource; VDict items] ∅ ∧
         has_type (σ "_A_REQ") req = true ∧
         has_type (σ "_A_RESP") resp = true ∧
         Forall str_key items)
  ∧ (∀ c, accepts (subst_sig σ asgi_process_response_contract) c = true ↔
       ∃ req resp resource succeeded,
         c = Call [req; resp; resource; VBool succeeded] ∅ ∧
         has_type (σ "_A_REQ") req = true ∧
         has_type (σ "_A_RESP") resp = true)
  ∧ (∀ c, accepts (subst_sig σ asgi_process_request_ws_contract) c = true ↔
       ∃ req ws,
         c = Call [req; ws] ∅ ∧
         has_type (σ "_A_REQ") req = true ∧ has_type WebSocket ws = true)
  ∧ (∀ c, accepts (subst_sig σ asgi_process_resource_ws_contract) c = true ↔
       ∃ req ws resource items,
         c = Call [req; ws; resource; VDict items] ∅ ∧
         has_type (σ "_A_REQ") req = true ∧ has_type WebSocket ws = true ∧
         Forall str_key items)
  ∧ (∀ v, has_type (s_result (subst_sig σ process_request_contract)) v = true
          ↔ v = VNone)
  ∧ (∀ s, In s [asgi_process_request_contract;
                asgi_process_resource_contract;
                asgi_process_response_contract;
                asgi_process_request_ws_contract;
                asgi_process_resource_ws_contract] →
       ∀ v, has_type (s_result (subst_sig σ s)) v = true ↔
            v = VAwaitable VNone).
Proof.
  assert (Hdict : ∀ v, has_type (TDict TStr TAny) v = true ↔
            ∃ items, v = VDict items ∧ Forall str_key items).
  { intros v. rewrite (str_keyed TAny). split.
    - intros (items & -> & Hi). exists items. split; [reflexivity |].
      eapply Forall_impl; [exact Hi |]. cbv beta. tauto.
    - intros (items & -> & Hi). exists items. split; [reflexivity |].
      eapply Forall_impl; [exact Hi |]. cbv beta. auto. }
  split; [repeat split |].
  split; [| split; [| split; [| split; [| split; [| split; [| split]]]]]].
  - intros [args kw]. unfold process_request_contract.
    rewrite alias_accepts. simpl. split.
    + intros [-> HF]. args_of HF. eauto 10.
    + intros (q & p & [= -> ->] & Hq & Hp). split; [reflexivity | args_ok].
  - intros [args kw]. unfold asgi_process_request_contract.
    rewrite alias_accepts. simpl. split.
    + intros [-> HF]. args_of HF. eauto 10.
    + intros (q & p & [= -> ->] & Hq & Hp). split; [reflexivity | args_ok].
  - intros [args kw]. unfold asgi_process_resource_contract.
    rewrite alias_accepts. simpl. split.
    + intros [-> HF]. args_of HF.
      apply Hdict in Ha2 as (items & -> & Hi). eauto 10.
    + intros (q & p & r & items & [= -> ->] & Hq & Hp & Hi).
      split; [reflexivity |].
      assert (has_type (TDict TStr TAny) (VDict items) = true)
        by (apply Hdict; eauto).
      args_ok.
  - intros [args kw]. unfold asgi_process_response_contract.
    rewrite alias_accepts. simpl. split.
    + intros [-> HF]. args_of HF. destruct a2; try discriminate. eauto 10.
    + intros (q & p & r & b & [= -> ->] & Hq & Hp).
      split; [reflexivity | args_ok].
  - intros [args kw]. unfold asgi_process_request_ws_contract.
    rewrite alias_accepts. simpl. split.
    + intros [-> HF]. args_of HF. eauto 10.
    + intros (q & w & [= -> ->] & Hq & Hw). split; [reflexivity | args_ok].
  - intros [args kw]. unfold asgi_process_resource_ws_contract.
    rewrite alias_accepts. simpl. split.
    + intros [-> HF]. args_of HF.
      apply Hdict in Ha2 as (items & -> & Hi). eauto 10.
    + intros (q & w & r & items & [= -> ->] & Hq & Hw & Hi).
      split; [reflexivity |].
      assert (has_type (TDict TStr TAny) (VDict items) = true)
        by (apply Hdict; eauto).
      args_ok.
  - apply has_type_none.
  - intros s Hs v. simpl in Hs.
    repeat (destruct Hs as [<- | Hs]; [apply has_type_awaitable_none |]).
    destruct Hs.
Qed.

(** ** The WSGI start-response callable *)

Definition start_response_contract : signature :=
  callable_sig [TStr; TList (TTuple [TStr; TStr])] (TCallable [TBytes] TNone).

Lemma has_type_list (t : ty) (v : value) :
  has_type (TList t) v = true ↔
  ∃ vs, v = VList vs ∧ Forall (λ x, has_type t x = true) vs.
Proof.
  destruct v; simpl; try (split; [discriminate | intros (? & [=] & _)]).
  split.
  - intros H. exists vs. split; [reflexivity |].
    apply Forall_forall. intros x Hx. rewrite forallb_forall in H.
    apply H, list_elem_of_In, Hx.
  - intros (? & [= <-] & H). apply forallb_forall. intros x Hx.
    rewrite Forall_forall in H. apply H, list_elem_of_In, Hx.
Qed.

Definition header_pair (h : value) : Prop :=
  ∃ name content, h = VTuple [VStr name; VStr content].

Lemma header_pair_values (h : value) :
  has_type (TTuple [TStr; TStr]) h = true ↔ header_pair h.
Proof.
  rewrite has_type_tuple. unfold header_pair. split.
  - intros (vs & -> & HF). args_of HF.
    apply has_type_str in Ha as [n ->], Ha0 as [c ->]. eauto.
  - intros (n & c & ->). eexists. split; [reflexivity |]. args_ok.
Qed.

(** X6. Before Python 3.11 [StartResponse] is the alias of lines 47-48. It
    is then called with the status line, a string, and the response
    headers, a list of pairs of strings, and with nothing else: no keyword
    and no third argument. *)
Theorem start_response_contract_calls :
  contract_of "StartResponse" = Some start_response_contract
  ∧ (∀ c, accepts start_response_contract c = true ↔
       ∃ status headers,
         c = Call [VStr status; VList headers] ∅ ∧ Forall header_pair headers)
  ∧ (∀ status headers exc_info kw,
       accepts start_response_contract
               (Call [status; headers; exc_info] kw) = false).
Proof.
  split; [reflexivity |].
  assert (Hcalls : ∀ c, accepts start_response_contract c = true ↔
            ∃ status headers,
              c = Call [VStr status; VList headers] ∅ ∧
              Forall header_pair headers).
  { intros [args kw].
    change start_response_contract
      with (subst_sig erased
              (callable_sig [TStr; TList (TTuple [TStr; TStr])]
                            (TCallable [TBytes] TNone))).
    rewrite alias_accepts. simpl. split.
    + intros [-> HF]. args_of HF. apply has_type_str in Ha as [s ->].
      change (has_type (TList (TTuple [TStr; TStr])) a0 = true) in Ha0.
      apply has_type_list in Ha0 as (hs & -> & Hh). exists s, hs.
      split; [reflexivity |]. eapply Forall_impl; [exact Hh |].
      intros h. apply header_pair_values.
    + intros (s & hs & [= -> ->] & Hh). split; [reflexivity |].
      assert (has_type (TList (TTuple [TStr; TStr])) (VList hs) = true).
      { apply has_type_list. exists hs. split; [reflexivity |].
        eapply Forall_impl; [exact Hh |]. intros h. apply header_pair_values. }
      args_ok. }
  split; [exact Hcalls |].
  intros s h e kw. destruct (accepts _ _) eqn:E; [| reflexivity].
  apply Hcalls in E as (? & ? & [=] & _).
Qed.

(** ** Range-set headers *)

(** The integers of Python: [bool] is a subclass of [int]. *)
Definition is_int (v : value) : Prop := (∃ n, v = VInt n) ∨ (∃ b, v = VBool b).

Lemma has_type_int (v : value) : has_type TInt v = true ↔ is_int v.
Proof.
  unfold is_int. destruct v; simpl;
    try (split; [discriminate | intros [[? [=]] | [? [=]]]]).
  - split; [eauto | reflexivity].
  - split; [eauto | reflexivity].
Qed.

(** X9. A [RangeSetHeader] (line 117) is a triple of integers, or such a
    triple followed by a string; no value has both forms, and no tuple of
    another length is a range-set header. *)
Theorem range_set_header_values (v : value) :
  (has_type RangeSetHeader v = true ↔
   ∃ first last total,
     is_int first ∧ is_int last ∧ is_int total ∧
     (v = VTuple [first; last; total]
      ∨ ∃ unit, v = VTuple [first; last; total; VStr unit]))
  ∧ (∀ vs, v = VTuple vs → has_type RangeSetHeader v = true →
           length vs = 3 ∨ length vs = 4).
Proof.
  assert (Hiff : has_type RangeSetHeader v = true ↔
    ∃ first last total,
      is_int first ∧ is_int last ∧ is_int total ∧
      (v = VTuple [first; last; total]
       ∨ ∃ unit, v = VTuple [first; last; total; VStr unit])).
  { unfold RangeSetHeader. rewrite has_type_union. split.
    - intros (t & Ht & Hv). apply elem_of_cons in Ht as [-> | Ht].
      + apply has_type_tuple in Hv as (vs & -> & HF). args_of HF.
        exists a, a0, a1. rewrite <- !has_type_int. auto.
      + apply list_elem_of_singleton in Ht as ->.
        apply has_type_tuple in Hv as (vs & -> & HF). args_of HF.
        apply has_type_str in Ha2 as [u ->].
        exists a, a0, a1. rewrite <- !has_type_int. eauto 6.
    - intros (a & b & c & Ha & Hb & Hc & [-> | [u ->]]);
        apply has_type_int in Ha, Hb, Hc.
      + exists (TTuple [TInt; TInt; TInt]). split; [left |].
        apply has_type_tuple. eexists. split; [reflexivity |]. args_ok.
      + exists (TTuple [TInt; TInt; TInt; TStr]). split; [right; left |].
        apply has_type_tuple. eexists. split; [reflexivity |]. args_ok. }
  split; [exact Hiff |].
  intros vs -> (a & b & c & _ & _ & _ & [[= ->] | [u [= ->]]])%Hiff;
    [left | right]; reflexivity.
Qed.

(** ** How the mapping aliases include one another *)

(** Every value of the first type is a value of the second. *)
Definition included (s t : ty) : Prop :=
  ∀ v, has_type s v = true → has_type t v = true.

Lemma has_type_mapping (k e : ty) (v : value) :
  has_type (TMapping k e) v = has_type (TDict k e) v.
Proof. reflexivity. Qed.

Lemma dict_included (k e e' : ty) :
  included e e' → included (TDict k e) (TDict k e').
Proof.
  intros He v (items & -> & H)%has_type_dict. apply has_type_dict.
  exists items. split; [reflexivity |].
  eapply Forall_impl; [exact H |]. cbv beta. intros kv [Hk Hv].
  split; [exact Hk | apply He, Hv].
Qed.

(** X10. Every link dictionary ([Link], string to string) is a header
    mapping, hence a header argument, and also a cookie argument, a WSGI
    environment and a store argument. The inclusions are strict: [None] is
    a store argument but no WSGI environment, and a dictionary with a value
    that is not a string is a WSGI environment but no link. *)
Theorem mapping_alias_inclusions :
  included Link HeaderMapping
  ∧ included HeaderMapping HeaderArg
  ∧ included Link CookieArg
  ∧ included Link WSGIEnvironment
  ∧ included WSGIEnvironment StoreArg
  ∧ included Link StoreArg
  ∧ (has_type StoreArg VNone = true ∧ has_type WSGIEnvironment VNone = false)
  ∧ (has_type WSGIEnvironment (VDict [(VStr "wsgi.multithread", VBool true)])
     = true
     ∧ has_type Link (VDict [(VStr "wsgi.multithread", VBool true)]) = false).
Proof.
  split; [intros v Hv; exact Hv |].
  split.
  { intros v Hv. unfold HeaderArg. apply has_type_union.
    exists HeaderMapping. split; [left | exact Hv]. }
  split.
  { intros v Hv. unfold CookieArg. rewrite has_type_mapping.
    revert v Hv. apply dict_included. intros v Hv.
    apply has_type_union. exists TStr. split; [left | exact Hv]. }
  split.
  { apply dict_included. intros v _. reflexivity. }
  split.
  { intros v Hv. unfold StoreArg. apply has_type_optional. right. exact Hv. }
  split.
  { intros v Hv. unfold StoreArg. apply has_type_optional. right.
    revert v Hv. apply dict_included. intros v _. reflexivity. }
  repeat split.
Qed.

(** ** The bounds keep the two families apart *)

(** X11. Under any instantiation that respects the bounds of the type
    variables (lines 68-72), no ASGI contract admits a call whose request
    argument is not an instance of the ASGI request class, and no WSGI
    contract admits a call whose request argument is not an instance of the
    WSGI request class. *)
Theorem families_keep_their_request (σ : string → ty) (v w : value)
    (Hσ : respects_bounds σ)
    (Hv : has_type AsgiRequest v = false)
    (Hw : has_type Request w = false) :
  (∀ resource resp kw,
     accepts (asgi_responder_sig σ) (Call [resource; v; resp] kw) = false)
  ∧ (∀ resp kw,
       accepts (asgi_responder_callable_sig σ) (Call [v; resp] kw) = false)
  ∧ (∀ ws kw, accepts (ws_responder_sig σ) (Call [v; ws] kw) = false)
  ∧ (∀ resp kw, accepts (asgi_sink_sig σ) (Call [v; resp] kw) = false)
  ∧ (∀ resp error params kw,
       accepts (asgi_error_handler_sig σ) (Call [v; resp; error; params] kw)
       = false)
  ∧ (∀ resource resp kw,
       accepts (responder_sig σ) (Call [resource; w; resp] kw) = false)
  ∧ (∀ resp kw,
       accepts (responder_callable_sig σ) (Call [w; resp] kw) = false)
  ∧ (∀ resp kw, accepts (sink_sig σ) (Call [w; resp] kw) = false)
  ∧ (∀ resp error params kw,
       accepts (error_handler_sig σ) (Call [w; resp; error; params] kw)
       = false).
Proof.
  assert (Ha : has_type (σ "_A_REQ") v = false).
  { destruct (has_type (σ "_A_REQ") v) eqn:E; [| reflexivity].
    apply (Hσ "_A_REQ" AsgiRequest v eq_refl) in E. congruence. }
  assert (Hr : has_type (σ "_REQ") w = false).
  { destruct (has_type (σ "_REQ") w) eqn:E; [| reflexivity].
    apply (Hσ "_REQ" Request w eq_refl) in E. congruence. }
  assert (Hpo : ∀ s, posonly_required s → ∀ args kw p ps,
            s_posonly s = p :: ps → ∀ x xs, args = x :: xs →
            has_type (p_type p) x = false → accepts s (Call args kw) = false).
  { intros s Hs args kw p ps Hp x xs -> Hx.
    destruct (accepts s _) eqn:E; [| reflexivity].
    apply (accepts_posonly _ _ Hs) in E as [HF _]. simpl in HF.
    rewrite Hp in HF. inversion HF; subst. congruence. }
  split; [| split; [| split; [| split; [| split; [| split; [| split; [| split]]]]]]].
  - intros r p kw. destruct (accepts _ _) eqn:E; [| reflexivity].
    apply asgi_responder_accepts in E as (? & ? & ? & [= <- <- <-] & Hq & _).
    congruence.
  - intros p kw. eapply Hpo; [| reflexivity | reflexivity | exact Ha].
    repeat split. repeat constructor.
  - intros p kw. eapply Hpo; [| reflexivity | reflexivity | exact Ha].
    repeat split. repeat constructor.
  - intros p kw. eapply Hpo; [| reflexivity | reflexivity | exact Ha].
    repeat split. repeat constructor.
  - intros p e ps kw. destruct (accepts _ _) eqn:E; [| reflexivity].
    apply asgi_error_handler_accepts in E
      as (? & ? & ? & ? & [= <- <- <- <-] & Hq & _).
    congruence.
  - intros r p kw. destruct (accepts _ _) eqn:E; [| reflexivity].
    apply responder_accepts in E as (? & ? & ? & [= <- <- <-] & Hq & _).
    congruence.
  - intros p kw. eapply Hpo; [| reflexivity | reflexivity | exact Hr].
    repeat split. repeat constructor.
  - intros p kw. eapply Hpo; [| reflexivity | reflexivity | exact Hr].
    repeat split. repeat constructor.
  - intros p e ps kw. eapply Hpo; [| reflexivity | reflexivity | exact Hr].
    repeat split. repeat constructor.
Qed.

(** A request and a response whose classes derive from the WSGI ones, as
    objects of the ASGI family would be. *)
Definition an_asgi_request : value :=
  VObject ["falcon.asgi.Request"; "falcon.request.Request"; "object"].
Definition an_asgi_response : value :=
  VObject ["falcon.asgi.Response"; "falcon.response.Response"; "object"].

Example asgi_objects_fit_both_families :
  accepts (asgi_responder_sig bounds)
    (Call [VNone; an_asgi_request; an_asgi_response] ∅) = true
  ∧ accepts (responder_sig bounds)
      (Call [VNone; an_asgi_request; an_asgi_response] ∅) = true
  ∧ accepts (responder_sig bounds)
      (Call [VNone; a_request; a_response] ∅) = true.
Proof. repeat split; vm_compute; reflexivity. Qed.

Lemma families_keep_their_request_witness :
  respects_bounds bounds
  ∧ has_type AsgiRequest a_request = false
  ∧ has_type Request (VStr "GET /") = false
  ∧ (∀ resource resp kw,
       accepts (asgi_responder_sig bounds) (Call [resource; a_request; resp] kw)
       = false)
  ∧ (∀ resp kw,
       accepts (sink_sig bounds) (Call [VStr "GET /"; resp] kw) = false).
Proof.
  split; [exact bounds_respected |]. split; [reflexivity |].
  split; [reflexivity |].
  destruct (families_keep_their_request bounds a_request (VStr "GET /")
              bounds_respected eq_refl eq_refl)
    as (H1 & _ & _ & _ & _ & _ & _ & H8 & _).
  split; [exact H1 | exact H8].
Defined.

(** ** Header arguments *)

(** X13. A list is a header argument ([HeaderArg], lines 111-113) exactly
    when each of its elements is a pair of strings. A dictionary is a header
    argument exactly when it maps strings to strings, or when each of its
    keys is a pair of strings (iterating over a dictionary yields its keys).
    [None] and numbers are no header arguments. *)
Theorem header_arg_values :
  (∀ vs, has_type HeaderArg (VList vs) = true ↔ Forall header_pair vs)
  ∧ (∀ items, has_type HeaderArg (VDict items) = true ↔
       Forall (λ kv, (∃ name, fst kv = VStr name) ∧
                     (∃ content, snd kv = VStr content)) items
       ∨ Forall (λ kv, header_pair (fst kv)) items)
  ∧ has_type HeaderArg VNone = false
  ∧ (∀ n, has_type HeaderArg (VInt n) = false).
Proof.
  assert (Hall : ∀ {A} (f : A → bool) (P : A → Prop) (l : list A),
            (∀ x, f x = true ↔ P x) → forallb f l = true ↔ Forall P l).
  { intros A f P l HfP. induction l as [|x l IH]; simpl.
    - split; [constructor | reflexivity].
    - rewrite andb_true_iff, Forall_cons, IH, HfP. reflexivity. }
  split; [| split; [| split; [reflexivity | reflexivity]]].
  - intros vs. unfold HeaderArg. rewrite has_type_union. split.
    + intros (t & Ht & Hv). apply elem_of_cons in Ht as [-> | Ht];
        [discriminate Hv |].
      apply list_elem_of_singleton in Ht as ->.
      cbn [has_type HeaderIter] in Hv.
      apply (Hall _ _ header_pair) in Hv; [exact Hv |].
      intros x. apply header_pair_values.
    + intros H. exists HeaderIter. split; [right; left |].
      cbn [has_type HeaderIter].
      apply (Hall _ _ header_pair); [| exact H].
      intros x. apply header_pair_values.
  - intros items. unfold HeaderArg. rewrite has_type_union. split.
    + intros (t & Ht & Hv). apply elem_of_cons in Ht as [-> | Ht].
      * left. unfold HeaderMapping in Hv. rewrite has_type_mapping in Hv.
        apply has_type_dict in Hv as (items' & [= <-] & H).
        eapply Forall_impl; [exact H |]. cbv beta. intros kv [Hk He].
        split; apply has_type_str; assumption.
      * apply list_elem_of_singleton in Ht as ->. right.
        cbn [has_type HeaderIter] in Hv.
        apply (Hall _ _ (λ kv, header_pair (fst kv))) in Hv; [exact Hv |].
        intros kv. apply header_pair_values.
    + intros [H | H].
      * exists HeaderMapping. split; [left |].
        unfold HeaderMapping. rewrite has_type_mapping. apply has_type_dict.
        exists items. split; [reflexivity |].
        eapply Forall_impl; [exact H |]. cbv beta. intros kv [Hk He].
        split; apply has_type_str; assumption.
      * exists HeaderIter. split; [right; left |].
        cbn [has_type HeaderIter].
        apply (Hall _ _ (λ kv, header_pair (fst kv))); [| exact H].
        intros kv. apply header_pair_values.
Qed.

(** ** Type parameters of the protocols *)

(** The type variables that occur in a type expression. *)
Fixpoint free_vars (t : ty) : list string :=
  match t with
  | TVar n => [n]
  | TUnion ts | TTuple ts => flat_map free_vars ts
  | TOptional t' | TList t' | TIterable t' | TPattern t' | TAwaitable t' =>
      free_vars t'
  | TDict k v | TMapping k v => (free_vars k ++ free_vars v)%list
  | TCallable args ret => (flat_map free_vars args ++ free_vars ret)%list
  | _ => []
  end.

Definition sig_vars (s : signature) : list string :=
  (flat_map (λ p, free_vars (p_type p))
            (s_posonly s ++ s_params s ++ s_kwonly s)
   ++ from_option free_vars [] (s_varkw s)
   ++ free_vars (s_ret s))%list.

Lemma subst_list_ext (σ τ : string → ty) (ts : list ty) :
  Forall (λ t, (∀ n, In n (free_vars t) → σ n = τ n) →
               subst σ t = subst τ t) ts →
  (∀ n, In n (flat_map free_vars ts) → σ n = τ n) →
  map (subst σ) ts = map (subst τ) ts.
Proof.
  induction 1 as [|t ts Ht _ IH]; [reflexivity |]. simpl. intros Hn.
  rewrite Ht, IH; [reflexivity | |]; intros n Hin; apply Hn, in_or_app; auto.
Qed.

(** An instance depends on the variables of the expression only. *)
Lemma subst_ext (σ τ : string → ty) (t : ty) :
  (∀ n, In n (free_vars t) → σ n = τ n) → subst σ t = subst τ t.
Proof.
  induction t using ty_nested_ind; simpl; intros Hn; try reflexivity.
  - apply Hn. left. reflexivity.
  - f_equal. apply subst_list_ext; assumption.
  - f_equal. apply IHt, Hn.
  - f_equal. apply subst_list_ext; assumption.
  - f_equal; [apply IHt1 | apply IHt2]; intros n Hin;
      apply Hn, in_or_app; auto.
  - f_equal; [apply IHt1 | apply IHt2]; intros n Hin;
      apply Hn, in_or_app; auto.
  - f_equal. apply IHt, Hn.
  - f_equal. apply IHt, Hn.
  - f_equal. apply IHt, Hn.
  - f_equal. apply IHt, Hn.
  - f_equal.
    + apply subst_list_ext; [assumption |].
      intros n Hin. apply Hn, in_or_app. auto.
    + apply IHt. intros n Hin. apply Hn, in_or_app. auto.
Qed.

Lemma subst_params_ext (σ τ : string → ty) (ps : list param) :
  (∀ n, In n (flat_map (λ p, free_vars (p_type p)) ps) → σ n = τ n) →
  map (subst_param σ) ps = map (subst_param τ) ps.
Proof.
  induction ps as [|p ps IH]; [reflexivity |]. simpl. intros Hn.
  unfold subst_param at 1 3. rewrite (subst_ext σ τ (p_type p)), IH;
    [reflexivity | |]; intros n Hin; apply Hn, in_or_app; auto.
Qed.

Lemma subst_sig_ext (σ τ : string → ty) (s : signature) :
  (∀ n, In n (sig_vars s) → σ n = τ n) → subst_sig σ s = subst_sig τ s.
Proof.
  unfold sig_vars, subst_sig. intros Hn.
  rewrite !flat_map_app in Hn.
  rewrite (subst_params_ext σ τ (s_posonly s)),
          (subst_params_ext σ τ (s_params s)),
          (subst_params_ext σ τ (s_kwonly s)),
          (subst_ext σ τ (s_ret s)).
  - f_equal. destruct (s_varkw s) as [t|] eqn:E; [| reflexivity]. simpl.
    f_equal. apply subst_ext. intros n Hin. apply Hn.
    rewrite !in_app_iff. simpl. auto.
  - intros n Hin. apply Hn. rewrite !in_app_iff. auto.
  - intros n Hin. apply Hn. rewrite !in_app_iff. auto.
  - intros n Hin. apply Hn. rewrite !in_app_iff. auto.
  - intros n Hin. apply Hn. rewrite !in_app_iff. auto.
Qed.

(** X12. Each protocol class is generic in exactly the type variables its
    [__call__] mentions: a declared parameter is used and a used variable
    is declared. Hence two instantiations that agree on the declared
    parameters of a protocol give the same signature. *)
Theorem protocol_type_parameters (p : protocol) (Hp : In p protocols) :
  (∀ n, In n (proto_tparams p) ↔ In n (sig_vars (proto_call p)))
  ∧ (∀ σ τ, (∀ n, In n (proto_tparams p) → σ n = τ n) →
            subst_sig σ (proto_call p) = subst_sig τ (proto_call p)).
Proof.
  assert (H : ∀ n, In n (proto_tparams p) ↔ In n (sig_vars (proto_call p))).
  { intros n. simpl in Hp.
    repeat (destruct Hp as [<- | Hp]; [simpl; tauto |]). destruct Hp. }
  split; [exact H |].
  intros σ τ Hn. apply subst_sig_ext. intros n Hin. apply Hn, H, Hin.
Qed.

Lemma protocol_type_parameters_witness :
  In AsgiErrorHandler protocols
  ∧ (∀ n, In n ["_A_REQ"; "_A_RESP"; "_BE"] ↔
          In n (sig_vars (proto_call AsgiErrorHandler)))
  ∧ subst_sig bounds (proto_call AsgiErrorHandler)
    = subst_sig (λ n, if String.eqb n "_T" then TStr else bounds n)
                (proto_call AsgiErrorHandler).
Proof.
  assert (Hin : In AsgiErrorHandler protocols) by (simpl; tauto).
  destruct (protocol_type_parameters AsgiErrorHandler Hin) as [H1 H2].
  split; [exact Hin |]. split; [exact H1 |].
  apply H2. intros n Hn. simpl in Hn.
  repeat (destruct Hn as [<- | Hn]; [reflexivity |]). destruct Hn.
Defined.
